(** * FFT-Microphone-analyzer: a shallow embedding of src/main.rs

    The audio callback of [main] (the sample accumulator), [fft] with
    [is_power_of_two], the [NoteStatus] helpers and [Graph::run] are
    translated below.  Floating-point ([f32]) arithmetic is idealised as
    real arithmetic ([R]); the Rust float-to-integer casts ([as usize],
    [as u8], [as i8], [as i32]) are written out with their truncation and
    saturation.  A panic of the Rust code is the [Panic] outcome, or [None]
    where the function returns an [option]. *)

From Stdlib Require Import String List Arith Lia NArith ZArith Reals Lra.
From Equations Require Import Equations.
Import ListNotations.

Open Scope bool_scope.
Open Scope nat_scope.

(** Result of a computation that may panic. *)
Inductive outcome (A : Type) : Type :=
| Ok (a : A)
| Panic.
Arguments Ok {A} a.
Arguments Panic {A}.

(* ------------------------------------------------------------------ *)
(** ** The sample accumulator (the data callback of [build_input_stream]) *)
(* ------------------------------------------------------------------ *)

Module Accumulator.
Section Callback.
Context {A : Type}.

(** One invocation of the closure [move |data: &[f32], __info| { ... }]
    (main.rs lines 271-321), with [buffer_size] fixed by [main].  It takes
    the contents of [fft_transform_buffer] ([buf]) and the delivered chunk
    ([data]) and returns the new contents of [fft_transform_buffer] and the
    window handed to [fft] when [buf.len() == buffer_size] (the spectrum
    written to [fft_transform] is [spectrum] of that window, see
    [data_callback] below).  The usize subtractions cannot underflow in
    the branch where they occur ([sum_data >= buffer_size] and
    [buf.len() < buffer_size]), so nat subtraction is exact there. *)
Definition callback (buffer_size : nat) (buf data : list A)
  : list A * option (list A) :=
  let remaining := @nil A in
  let sum_data := length buf + length data in
  let '(buf, remaining) :=
    if (length buf <? buffer_size) && (buffer_size <=? sum_data) then
      let max_i := length data - (sum_data - buffer_size) in
      if 0 <? max_i then
        (buf ++ firstn max_i data, skipn max_i data)
      else (buf, remaining)
    else (buf, remaining) in
  if length buf =? buffer_size then
    (remaining, Some buf)
  else
    (buf ++ data, None).

(** The audio driver invoking the callback once per chunk, in order: the
    windows handed to [fft], in order, and the final buffer contents. *)
Fixpoint feed (buffer_size : nat) (buf : list A) (chunks : list (list A))
  : list (list A) * list A :=
  match chunks with
  | [] => ([], buf)
  | data :: rest =>
      let '(buf', w) := callback buffer_size buf data in
      let '(ws, final) := feed buffer_size buf' rest in
      (match w with Some win => win :: ws | None => ws end, final)
  end.

End Callback.
End Accumulator.

(* ------------------------------------------------------------------ *)
(** ** Complex numbers ([num_complex::Complex<f32>], idealised over R) *)
(* ------------------------------------------------------------------ *)

Module Cplx.
Record C := mkC { re : R; im : R }.

Definition C0 : C := mkC 0%R 0%R.
(** [Complex::from(x)] *)
Definition Cfrom (x : R) : C := mkC x 0%R.
Definition Cadd (a b : C) : C := mkC (re a + re b)%R (im a + im b)%R.
Definition Csub (a b : C) : C := mkC (re a - re b)%R (im a - im b)%R.
Definition Cmul (a b : C) : C :=
  mkC (re a * re b - im a * im b)%R (re a * im b + im a * re b)%R.
(** [Complex::exp]: [from_polar(re.exp(), im)] *)
Definition Cexp (a : C) : C := mkC (exp (re a) * cos (im a))%R (exp (re a) * sin (im a))%R.
(** [Complex::norm]: [re.hypot(im)] *)
Definition Cnorm (a : C) : R := sqrt (re a * re a + im a * im a)%R.
End Cplx.

(* ------------------------------------------------------------------ *)
(** ** [is_power_of_two] and [fft] (main.rs lines 213-241) *)
(* ------------------------------------------------------------------ *)

Module FFT.
Import Cplx.

(** [n != 0 && (n & (n - 1)) == 0] on usize. *)
Definition is_power_of_two (n : nat) : bool :=
  negb (n =? 0) && (N.land (N.of_nat n) (N.of_nat n - 1) =? 0)%N.

(** [signal.slice(s![..;2])] and [signal.slice(s![1..;2])]. *)
Fixpoint evens {A} (l : list A) : list A :=
  match l with [] => [] | x :: r => x :: odds r end
with odds {A} (l : list A) : list A :=
  match l with [] => [] | _ :: r => evens r end.

(** [output[i] = v] for an index inside the array (the loop below only
    writes such indices). *)
Fixpoint set_nth {A} (i : nat) (v : A) (l : list A) : list A :=
  match l, i with
  | [], _ => []
  | _ :: r, 0 => v :: r
  | x :: r, S i' => x :: set_nth i' v r
  end.

(** [let t = Complex::new(0.0, -2.0 * PI * k as f32 / (n as f32)).exp() * odd[k];] *)
Definition twiddle_times (n k : nat) (o : C) : C :=
  Cmul (Cexp (mkC 0%R (-2 * PI * INR k / INR n)%R)) o.

(** The combining loop [for k in 0..max_frequency_range { ... }] over an
    output initialised by [Array1::zeros(n)]. *)
Definition combine (n : nat) (even odd : list C) : list C :=
  let max_frequency_range := n / 2 in
  fold_left
    (fun output k =>
       let t := twiddle_times n k (nth k odd C0) in
       set_nth (k + max_frequency_range) (Csub (nth k even C0) t)
         (set_nth k (Cadd (nth k even C0) t) output))
    (seq 0 max_frequency_range) (repeat C0 n).

(** Matching on a boolean test while keeping its equation. *)
Definition inspect {A : Type} (x : A) : { y : A | x = y } := exist _ x eq_refl.

(** [fft]: [None] is the [panic!] of a length that is not a power of two
    (in this call or in a recursive one). *)
Equations? fft (signal : list C) : option (list C) by wf (length signal) lt :=
fft signal with inspect (is_power_of_two (length signal)) => {
  | exist _ false _ := None;
  | exist _ true Hp with inspect (length signal =? 1) => {
    | exist _ true _ := Some signal;
    | exist _ false H1 :=
        match fft (evens signal), fft (odds signal) with
        | Some even, Some odd => Some (combine (length signal) even odd)
        | _, _ => None
        end } }.
Proof.
  all: assert (Hl : forall l : list C,
                  length (evens l) + length (odds l) = length l /\
                  length (odds l) <= length (evens l) <= length (odds l) + 1)
    by (intros l; induction l as [|x r IH]; simpl; lia).
  all: unfold is_power_of_two in Hp; apply andb_prop in Hp as [Hp _];
       apply Bool.negb_true_iff, Nat.eqb_neq in Hp; apply Nat.eqb_neq in H1;
       specialize (Hl signal); lia.
Qed.

(** The magnitude spectrum written to [fft_transform]:
    [output.iter().map(|x| x.norm()).collect()] of the transform of
    [buf.iter().map(|x| Complex::from(x))]. *)
Definition spectrum (window : list R) : option (list R) :=
  option_map (map Cnorm) (fft (map Cfrom window)).

End FFT.

(** The discrete Fourier transform that [fft] is meant to compute, as a
    reference: bin [j] of a signal [x] of length [n] is
    [sum_{t < n} x_t * exp(-2 pi i j t / n)]. *)
Module DFT.
Import Cplx.

(** [exp(-2 pi i m / n)], the factor of [twiddle_times]. *)
Definition W (n m : nat) : C := Cexp (mkC 0%R (-2 * PI * INR m / INR n)%R).

Definition Csum (l : list C) : C := fold_right Cadd C0 l.

Definition dft (x : list C) (j : nat) : C :=
  Csum (map (fun t => Cmul (nth t x C0) (W (length x) (j * t))) (seq 0 (length x))).

End DFT.

(* ------------------------------------------------------------------ *)
(** ** The whole data callback *)
(* ------------------------------------------------------------------ *)

Module Stream.

(** [main]'s [buffer_size = 2usize.pow(12)]. *)
Definition buffer_size : nat := 2 ^ 12.

(** The data callback acting on the contents of [fft_transform_buffer] and
    of [fft_transform]: when a window is complete its magnitude spectrum
    replaces [fft_transform]; [Panic] is a panic inside [fft]. *)
Definition data_callback (buffer_size : nat) (fft_transform_buffer fft_transform data : list R)
  : outcome (list R * list R) :=
  let '(buf, window) := Accumulator.callback buffer_size fft_transform_buffer data in
  match window with
  | None => Ok (buf, fft_transform)
  | Some w =>
      match FFT.spectrum w with
      | Some result => Ok (buf, result)
      | None => Panic
      end
  end.

End Stream.

(* ------------------------------------------------------------------ *)
(** ** [NoteStatus] (main.rs lines 16-98) *)
(* ------------------------------------------------------------------ *)

Module Note.
Local Open Scope R_scope.

(** [f32::trunc] as an integer (rounding toward zero). *)
Definition trunc (x : R) : Z :=
  if Rle_dec 0 x then Int_part x else (- Int_part (- x))%Z.

(** [f32::floor]; [Int_part] is the floor of a real. *)
Definition floor (x : R) : R := IZR (Int_part x).

(** [f32::round]: half-way cases away from zero. *)
Definition round (x : R) : R :=
  IZR (if Rle_dec 0 x then Int_part (x + / 2) else (- Int_part (- x + / 2))%Z).

(** [f32::log2]. *)
Definition log2 (x : R) : R := ln x / ln 2.

(** The [%] operator on [f32] (C's [fmod]): [x - trunc(x / y) * y]. *)
Definition fmod (x y : R) : R := x - IZR (trunc (x / y)) * y.

(** A saturating float-to-integer cast [x as T] for an integer type with
    range [lo ..= hi]: truncation toward zero, then saturation. *)
Definition cast_sat (lo hi : Z) (x : R) : Z := Z.max lo (Z.min hi (trunc x)).
Definition as_usize (x : R) : Z := cast_sat 0 (2 ^ 64 - 1) x.
Definition as_u8 (x : R) : Z := cast_sat 0 255 x.
Definition as_i8 (x : R) : Z := cast_sat (-128) 127 x.

Record NoteStatus := mkNoteStatus {
  frequency_in_hz : R;
  key_number : R;
  raw_note_number : R;
  note_number : R;
  error_percentage : Z  (* i8 *)
}.

(** [12.0 * (freq / 440.0).log2() + 49.0]. The model is faithful for
    [freq > 0] only: for [freq <= 0] the f32 code yields -inf or NaN, while
    [ln] (hence [log2]) is 0 there, so the model gives key 49. *)
Definition frequency_to_key_number (freq : R) : R :=
  12 * log2 (freq / 440) + 49.

(** [((key - 1.0) % 12.0) - 2.0] *)
Definition key_to_raw_note_number (key : R) : R :=
  fmod (key - 1) 12 - 2.

Definition notes_names : list string :=
  ["C "; "C#"; "D "; "D#"; "E "; "F "; "F#"; "G "; "G#"; "A "; "A#"; "B "]%string.

(** [notes_names[(key - 1.0) as usize].into()]; [None] is the
    out-of-bounds panic. *)
Definition note_number_to_name (key : R) : option string :=
  nth_error notes_names (Z.to_nat (as_usize (key - 1))).

(** [((raw_note_number - target_note_number) * 100.0).round() as i8] *)
Definition get_error_percentage (raw_note_number target_note_number : R) : Z :=
  as_i8 (round ((raw_note_number - target_note_number) * 100)).

(** [(bin_index as f32 * sample_rate as f32) / total_bins_len as f32] *)
Definition bin_index_to_frequency_in_hz (bin_index total_bins_len sample_rate : nat) : R :=
  (INR bin_index * INR sample_rate) / INR total_bins_len.

(** [((key_number.round() / 12.0).floor() + 1.0) as u8] *)
Definition get_octave_by_key_number (key_number : R) : Z :=
  as_u8 (floor (round key_number / 12) + 1).

(** [NoteStatus::new] *)
Definition new (frequency_in_hz : R) : NoteStatus :=
  let key_number := frequency_to_key_number frequency_in_hz in
  let raw_note_number := key_to_raw_note_number key_number in
  let note_number := key_to_raw_note_number (round key_number) in
  let error_percentage := get_error_percentage raw_note_number note_number in
  mkNoteStatus frequency_in_hz key_number raw_note_number note_number error_percentage.

End Note.

(* ------------------------------------------------------------------ *)
(** ** [Graph::run] (main.rs lines 109-211) *)
(* ------------------------------------------------------------------ *)

Module Graph.

Definition i32_max : Z := (2 ^ 31 - 1)%Z.

(** Integer casts to [i32] ([as i32] of a wider integer keeps the low 32
    bits) and wrapping [i32] multiplication (release build). *)
Definition wrap_i32 (z : Z) : Z := ((z + 2 ^ 31) mod 2 ^ 32 - 2 ^ 31)%Z.

(** [x as usize] of an [i32]: sign extension to 64 bits. *)
Definition usize_of_i32 (z : Z) : Z := (z mod 2 ^ 64)%Z.

(** [(self.width as f64 / max_bins_displayed_len as f64) as i32]: the f64
    quotient of two integers below 2^32 truncates to the integer quotient;
    [w / 0.0] is [+inf] (saturating to [i32::MAX]) and [0.0 / 0.0] is NaN
    (cast to 0). *)
Definition frequency_bar_width (width max_bins_displayed_len : Z) : Z :=
  if (max_bins_displayed_len =? 0)%Z then (if (width =? 0)%Z then 0%Z else i32_max)
  else Z.min i32_max (width / max_bins_displayed_len).

(** Lines 203-209: the selected bin.  [Ok None] is [(bars, None)]; the
    [i32] division panics on a zero divisor or on [i32::MIN / -1], and the
    usize [%] on a zero modulus. *)
Definition select_bin (mouse_x frequency_bar_width max_bins_displayed_len : Z)
  : outcome (option Z) :=
  if (wrap_i32 (frequency_bar_width * wrap_i32 max_bins_displayed_len) <=? mouse_x)%Z
  then Ok None
  else if (frequency_bar_width =? 0)%Z then Panic
  else if ((mouse_x =? - 2 ^ 31) && (frequency_bar_width =? -1))%Z then Panic
  else if (max_bins_displayed_len =? 0)%Z then Panic
  else Ok (Some (usize_of_i32 (Z.quot mouse_x frequency_bar_width)
                 mod max_bins_displayed_len)%Z).

(** The fields of [Graph] owned by the render thread. *)
Record Graph := mkGraph {
  width : Z;
  height : Z;
  buffer_size : nat;
  max_displayed_frequency : nat;
  data_buffer : list R
}.

(** The contents of the three [Arc<Mutex<_>>] shared with the audio
    callback ([data_locker]) and the event loop ([paused], [mouse_x]). *)
Record Shared := mkShared {
  data_locker : list R;
  paused : bool;
  mouse_x : Z
}.

(** The mutexes taken by [run], in order. *)
Inductive lock := LockPaused | LockDataLocker | LockMouseX.

Definition set_data_buffer (g : Graph) (b : list R) : Graph :=
  mkGraph (width g) (height g) (buffer_size g) (max_displayed_frequency g) b.

(** [Graph::run]: the new [Graph], the locks taken, and the selected bin
    index (the second component of the returned pair).  The bar list is
    built from [data_buffer] and changes neither the [Graph] nor the shared
    state; it is embedded on its own as [Bars.run_bars].  The
    usize product [max_displayed_frequency * data_buffer.len()] is taken
    without overflow. *)
Definition run (g : Graph) (sh : Shared) (stream_sample_rate : nat)
  : Graph * list lock * outcome (option Z) :=
  let '(g, locks) :=
    if paused sh then (g, [LockPaused])
    else (set_data_buffer g (data_locker sh), [LockPaused; LockDataLocker]) in
  if stream_sample_rate =? 0 then (g, locks, Panic) else
  let len := length (data_buffer g) in
  let max_bins_displayed_len := (max_displayed_frequency g * len) / stream_sample_rate in
  if len <? max_bins_displayed_len then (g, locks, Panic) else
  let bar_width := frequency_bar_width (width g) (Z.of_nat max_bins_displayed_len) in
  if len <? buffer_size g then (g, locks, Ok None) else
  (g, locks ++ [LockMouseX],
   select_bin (mouse_x sh) bar_width (Z.of_nat max_bins_displayed_len)).

End Graph.

(* ------------------------------------------------------------------ *)
(** ** The bars of [Graph::run] (main.rs lines 148-197) and their colour
    (lines 434-448) *)
(* ------------------------------------------------------------------ *)

Module Bars.
Import Note.

(** [u32] arithmetic and [i32 as u32] casts keep the low 32 bits (release
    build, as in [Graph]). *)
Definition wrap_u32 (z : Z) : Z := (z mod 2 ^ 32)%Z.

(** [x as u32] of a float. *)
Definition as_u32 (x : R) : Z := cast_sat 0 (2 ^ 32 - 1) x.

Record FrequencyData := mkFrequencyData {
  note_status : NoteStatus;
  amplitude_percentage : Z;  (* u8 *)
  analyzing_bin_index : nat
}.

Record GraphBar := mkGraphBar {
  width : Z;   (* u32 *)
  height : Z;  (* u32 *)
  x : Z;       (* i32 *)
  y : Z;       (* i32 *)
  frequency_data : FrequencyData
}.

(** [highest_amplitude_bin.1]: the largest value of [data_buffer]
    ([max_by] with [partial_cmp], no NaN in this model); [None] is the
    [unwrap] panic on an empty buffer. *)
Definition highest_amplitude (l : list R) : option R :=
  match l with
  | [] => None
  | a :: r => Some (fold_left Rmax r a)
  end.

(** The body of [for (i, data) in subset_bins.iter().enumerate()]:
    [frequency_bar_height], [real_frequency], [note_status] and the bar. *)
Definition bar (g : Graph.Graph) (stream_sample_rate : nat) (frequency_bar_width : Z)
    (highest : R) (i : nat) (data : R) : GraphBar :=
  let padding_top := 10%Z in
  let ground_y := 30%Z in
  let frequency_bar_height :=
    as_u32 (IZR (wrap_u32 (wrap_u32 (Graph.height g - ground_y) - padding_top)) * data
            / (highest * (11 / 10))) in
  let real_frequency :=
    bin_index_to_frequency_in_hz i (length (Graph.data_buffer g)) stream_sample_rate in
  let note_status := new real_frequency in
  mkGraphBar
    (wrap_u32 frequency_bar_width)
    frequency_bar_height
    (Graph.wrap_i32 (frequency_bar_width * Graph.wrap_i32 (Z.of_nat i)))
    (Graph.wrap_i32 (wrap_u32 (wrap_u32 (Graph.height g - ground_y) - frequency_bar_height)))
    (mkFrequencyData note_status
       (as_u8 (round (nth i (Graph.data_buffer g) 0%R / highest * 100))) i).

(** The bar list, first component of the result of [Graph::run], with the
    same refresh and guards as [Graph.run]; [Panic] is a panic before or
    inside the loop. *)
Definition run_bars (g : Graph.Graph) (sh : Graph.Shared) (stream_sample_rate : nat)
  : outcome (list GraphBar) :=
  let g := if Graph.paused sh then g else Graph.set_data_buffer g (Graph.data_locker sh) in
  if stream_sample_rate =? 0 then Panic else
  let len := length (Graph.data_buffer g) in
  let max_bins_displayed_len :=
    (Graph.max_displayed_frequency g * len) / stream_sample_rate in
  if len <? max_bins_displayed_len then Panic else
  let frequency_bar_width :=
    Graph.frequency_bar_width (Graph.width g) (Z.of_nat max_bins_displayed_len) in
  if len <? Graph.buffer_size g then Ok [] else
  match highest_amplitude (Graph.data_buffer g) with
  | None => Panic
  | Some highest =>
      Ok (map (fun i => bar g stream_sample_rate frequency_bar_width highest i
                          (nth i (Graph.data_buffer g) 0%R))
              (seq 0 max_bins_displayed_len))
  end.

(** The [DisplayColors::Amplitude] colour of a bar: [Color::RGBA(r, 36, b, 255)]. *)
Definition amplitude_color (amplitude_percentage : Z) : Z * Z * Z * Z :=
  let max_red := 200%R in
  let min_red := 63%R in
  let max_blue := 184%R in
  let min_blue := 104%R in
  let amplitude_percentage := (IZR amplitude_percentage / 100)%R in
  (as_u8 (round (amplitude_percentage * (max_red - min_red) + min_red)%R), 36%Z,
   as_u8 (round ((1 - amplitude_percentage) * (max_blue - min_blue) + min_blue)%R), 255%Z).

End Bars.

(* ================================================================== *)
(** * Proofs *)
(* ================================================================== *)

(* ------------------------------------------------------------------ *)
(** ** The accumulator *)
(* ------------------------------------------------------------------ *)

Module AccumulatorFacts.
Import Accumulator.
Section Facts.
Context {A : Type}.
Implicit Types (buf data : list A) (chunks : list (list A)).

(** While the buffer holds fewer than [buffer_size] samples, a callback
    either appends the whole chunk or completes the window with the first
    [buffer_size - buf.len()] samples and keeps the rest. *)
Lemma callback_below W buf data :
  length buf < W ->
  callback W buf data =
    if length buf + length data <? W then (buf ++ data, None)
    else (skipn (W - length buf) data, Some (buf ++ firstn (W - length buf) data)).
Proof.
  intros Hlt. unfold callback.
  assert (Hb : (length buf <? W) = true) by (apply Nat.ltb_lt; lia).
  rewrite Hb; simpl.
  destruct (length buf + length data <? W) eqn:Hs.
  - apply Nat.ltb_lt in Hs.
    assert (Hle : (W <=? length buf + length data) = false) by (apply Nat.leb_gt; lia).
    rewrite Hle.
    assert (Hn : (length buf =? W) = false) by (apply Nat.eqb_neq; lia).
    rewrite Hn. reflexivity.
  - apply Nat.ltb_ge in Hs.
    assert (Hle : (W <=? length buf + length data) = true) by (apply Nat.leb_le; lia).
    rewrite Hle.
    replace (length data - (length buf + length data - W)) with (W - length buf) by lia.
    assert (Hp : (0 <? W - length buf) = true) by (apply Nat.ltb_lt; lia).
    rewrite Hp.
    assert (Hlen : length (buf ++ firstn (W - length buf) data) = W).
    { rewrite length_app, length_firstn. lia. }
    rewrite Hlen, Nat.eqb_refl. reflexivity.
Qed.

(** Once the buffer holds more than [buffer_size] samples, the callback
    appends the whole chunk and hands no window to [fft]. *)
Lemma callback_above W buf data :
  W < length buf -> callback W buf data = (buf ++ data, None).
Proof.
  intros Hgt. unfold callback.
  assert (Hb : (length buf <? W) = false) by (apply Nat.ltb_ge; lia).
  rewrite Hb; simpl.
  assert (Hn : (length buf =? W) = false) by (apply Nat.eqb_neq; lia).
  rewrite Hn. reflexivity.
Qed.

Lemma feed_above W buf chunks :
  W < length buf -> feed W buf chunks = ([], buf ++ concat chunks).
Proof.
  revert buf. induction chunks as [|data rest IH]; intros buf Hgt; simpl.
  - rewrite app_nil_r. reflexivity.
  - rewrite callback_above by exact Hgt.
    rewrite IH by (rewrite length_app; lia).
    rewrite app_assoc. reflexivity.
Qed.

(** Sample conservation while every chunk fits in one window. *)
Lemma feed_conserve W chunks : forall buf,
  length buf < W ->
  Forall (fun c => length c <= W) chunks ->
  concat (fst (feed W buf chunks)) ++ snd (feed W buf chunks) = buf ++ concat chunks /\
  Forall (fun w => length w = W) (fst (feed W buf chunks)) /\
  length (snd (feed W buf chunks)) < W.
Proof.
  induction chunks as [|data rest IH]; intros buf Hlt Hall; simpl.
  - rewrite app_nil_r. auto.
  - inversion Hall as [|? ? Hd Hrest]; subst.
    rewrite (callback_below W buf data Hlt).
    destruct (length buf + length data <? W) eqn:Hs.
    + apply Nat.ltb_lt in Hs.
      assert (Hl : length (buf ++ data) < W) by (rewrite length_app; lia).
      destruct (IH (buf ++ data) Hl Hrest) as (Hc & Hw & Hb).
      destruct (feed W (buf ++ data) rest) as [ws final]; simpl in *.
      rewrite Hc, <- app_assoc. auto.
    + apply Nat.ltb_ge in Hs.
      assert (Hl : length (skipn (W - length buf) data) < W)
        by (rewrite length_skipn; lia).
      destruct (IH _ Hl Hrest) as (Hc & Hw & Hb).
      destruct (feed W (skipn (W - length buf) data) rest) as [ws final]; simpl in *.
      repeat split; auto.
      * rewrite <- app_assoc, Hc, !app_assoc, <- (app_assoc buf), firstn_skipn.
        reflexivity.
      * constructor; auto. rewrite length_app, length_firstn. lia.
Qed.

End Facts.
End AccumulatorFacts.

Module AccumulatorClaims.
Import Accumulator AccumulatorFacts.

Lemma length_concat_uniform {A} (W : nat) (ws : list (list A)) :
  Forall (fun w => length w = W) ws -> length (concat ws) = length ws * W.
Proof.
  induction 1 as [|w ws Hw _ IH]; simpl; [reflexivity|].
  rewrite length_app, Hw, IH. lia.
Qed.

Lemma firstn_skipn_app_exact {A} (n : nat) (l1 l2 : list A) :
  length l1 = n -> firstn n (l1 ++ l2) = l1 /\ skipn n (l1 ++ l2) = l2.
Proof.
  intros <-. rewrite firstn_app, skipn_app, Nat.sub_diag, firstn_O, skipn_O,
    firstn_all, skipn_all. split; [apply app_nil_r | reflexivity].
Qed.

(** C1 (as amended): while every chunk delivered to the audio callback
    holds at most [buffer_size] samples, a stream of [k * buffer_size + r]
    samples ([r < buffer_size]), fed from the empty buffer, makes the
    callback hand exactly [k] windows to [fft], each of [buffer_size]
    samples, whose concatenation is the first [k * buffer_size] samples,
    and the last [r] samples stay in the buffer. *)
Theorem feed_windows_conserve_samples {A} (W : nat) (chunks : list (list A)) (k r : nat) :
  Forall (fun c => length c <= W) chunks ->
  length (concat chunks) = k * W + r ->
  r < W ->
  let '(ws, final) := feed W [] chunks in
  length ws = k /\ Forall (fun w => length w = W) ws /\
  concat ws = firstn (k * W) (concat chunks) /\
  final = skipn (k * W) (concat chunks) /\ length final = r.
Proof.
  intros Hall Hlen Hr.
  destruct (feed_conserve W chunks [] ltac:(simpl; lia) Hall) as (Hc & Hw & Hb).
  destruct (feed W [] chunks) as [ws final]; simpl in *.
  pose proof (length_concat_uniform W ws Hw) as Hcw.
  assert (Htot : length ws * W + length final = k * W + r).
  { rewrite <- Hcw, <- length_app, Hc. exact Hlen. }
  assert (Hk : length ws = k).
  { destruct (Nat.lt_trichotomy (length ws) k) as [H|[H|H]]; [| exact H |].
    - assert ((length ws + 1) * W <= k * W) by (apply Nat.mul_le_mono_r; lia).
      rewrite Nat.mul_add_distr_r, Nat.mul_1_l in *. lia.
    - assert ((k + 1) * W <= length ws * W) by (apply Nat.mul_le_mono_r; lia).
      rewrite Nat.mul_add_distr_r, Nat.mul_1_l in *. lia. }
  subst k.
  destruct (firstn_skipn_app_exact (length ws * W) (concat ws) final Hcw) as [Hf Hs].
  rewrite <- Hc, Hf, Hs. repeat split; auto. lia.
Qed.

Lemma feed_windows_conserve_samples_witness :
  Forall (fun c => length c <= 2) [[1;2];[3];[4;5]] /\
  length (concat [[1;2];[3];[4;5]]) = 2 * 2 + 1 /\ 1 < 2 /\
  (let '(ws, final) := feed 2 [] [[1;2];[3];[4;5]] in
   length ws = 2 /\ Forall (fun w => length w = 2) ws /\
   concat ws = firstn (2 * 2) (concat [[1;2];[3];[4;5]]) /\
   final = skipn (2 * 2) (concat [[1;2];[3];[4;5]]) /\ length final = 1).
Proof.
  assert (Hf : Forall (fun c => length c <= 2) [[1;2];[3];[4;5]])
    by (repeat constructor).
  assert (Hr : 1 < 2) by lia.
  refine (conj Hf (conj eq_refl (conj Hr _))).
  exact (feed_windows_conserve_samples 2 [[1;2];[3];[4;5]] 2 1 Hf eq_refl Hr).
Defined.

(** C1 fails as stated: one chunk of 5 samples with [buffer_size = 2]
    (5 = 2 * 2 + 1) yields one window, not two, and leaves 3 samples, not
    1, in the buffer. *)
Lemma feed_large_chunk_counterexample :
  length (concat [[1;2;3;4;5]]) = 2 * 2 + 1 /\
  feed 2 [] [[1;2;3;4;5]] = ([[1;2]], [3;4;5]) /\
  length (fst (feed 2 [] [[1;2;3;4;5]])) <> 2.
Proof. repeat split; cbv; [discriminate]. Qed.

(** C4: a chunk that arrives when the buffer already holds exactly
    [buffer_size] samples is not kept: the full buffer goes to [fft] and
    the buffer is reset to the empty [remaining]; the chunk [[9]] is lost.
    The state is reached from the empty buffer by a chunk of
    [2 * buffer_size] samples. The loss is not specific to this input:
    for every [buffer_size], every buffer of exactly that length and every
    chunk, the callback returns the buffer as the window and keeps none of
    the chunk. *)
Theorem callback_full_buffer_drops_chunk :
  feed 4 [] [[1;2;3;4;5;6;7;8]] = ([[1;2;3;4]], [5;6;7;8]) /\
  callback 4 [5;6;7;8] [9] = ([], Some [5;6;7;8]) /\
  feed 4 [] [[1;2;3;4;5;6;7;8]; [9]] = ([[1;2;3;4]; [5;6;7;8]], []) /\
  (forall (A : Type) (W : nat) (buf data : list A),
     length buf = W -> callback W buf data = ([], Some buf)).
Proof.
  split; [reflexivity|]. split; [reflexivity|]. split; [reflexivity|].
  intros A W buf data Hl. unfold callback.
  assert (Hb : (length buf <? W) = false) by (apply Nat.ltb_ge; lia).
  rewrite Hb. simpl. rewrite Hl, Nat.eqb_refl. reflexivity.
Qed.

(** C10: from a buffer holding more than [buffer_size] samples, every
    callback appends the whole chunk and emits no window, so over any
    later sequence of chunks no window is emitted and the buffer only
    grows. *)
Theorem callback_overfull_lockout {A} (W : nat) (buf data : list A) :
  W < length buf ->
  callback W buf data = (buf ++ data, None) /\
  W < length (buf ++ data) /\
  (forall chunks, feed W buf chunks = ([], buf ++ concat chunks)).
Proof.
  intros Hgt. split; [|split].
  - apply callback_above; exact Hgt.
  - rewrite length_app. lia.
  - intros chunks. apply feed_above; exact Hgt.
Qed.

Lemma callback_overfull_lockout_witness :
  2 < length [1;2;3] /\
  callback 2 [1;2;3] [4] = ([1;2;3] ++ [4], None) /\
  2 < length ([1;2;3] ++ [4]) /\
  (forall chunks, feed 2 [1;2;3] chunks = ([], [1;2;3] ++ concat chunks)).
Proof.
  split; [simpl; lia|].
  apply (callback_overfull_lockout 2 [1;2;3] [4]). simpl; lia.
Defined.

(** The overfull state is reachable: from the empty buffer a chunk of
    [2 * buffer_size + 1] samples leaves [buffer_size + 1] samples. *)
Example overfull_reachable :
  feed 2 [] [[1;2;3;4;5]] = ([[1;2]], [3;4;5]).
Proof. reflexivity. Qed.

End AccumulatorClaims.

(* ------------------------------------------------------------------ *)
(** ** [is_power_of_two] and [fft] *)
(* ------------------------------------------------------------------ *)

Module FFTFacts.
Import Cplx FFT.

(** *** The bit test of [is_power_of_two] *)

Lemma land_pred_zero_pow2 (m : N) :
  m <> 0%N -> N.land m (m - 1) = 0%N -> exists k, m = (2 ^ k)%N.
Proof.
  induction m as [|m IH|m IH] using N.binary_ind; intros Hnz Hland.
  - contradiction.
  - (* m' = 2 * m, m <> 0 *)
    rewrite N.double_spec in Hnz, Hland |- *.
    assert (Hm : m <> 0%N) by (intros ->; apply Hnz; reflexivity).
    assert (Hm1 : (2 * m - 1 = 2 * (m - 1) + 1)%N) by lia.
    rewrite Hm1 in Hland.
    assert (Hl : N.land m (m - 1) = 0%N).
    { apply N.bits_inj_0. intros j.
      assert (Hb := f_equal (fun x => N.testbit x (N.succ j)) Hland).
      cbv beta in Hb. rewrite N.land_spec, N.testbit_even_succ, N.testbit_odd_succ in Hb
        by lia.
      rewrite N.land_spec. rewrite N.bits_0 in Hb. exact Hb. }
    destruct (IH Hm Hl) as [k ->]. exists (N.succ k).
    rewrite N.pow_succ_r'. reflexivity.
  - (* m' = 2 * m + 1 *)
    rewrite N.succ_double_spec in Hnz, Hland |- *.
    replace (2 * m + 1 - 1)%N with (2 * m)%N in Hland by lia.
    assert (Hm : m = 0%N).
    { apply N.bits_inj_0. intros j.
      assert (Hb := f_equal (fun x => N.testbit x (N.succ j)) Hland).
      cbv beta in Hb. rewrite N.land_spec, N.testbit_even_succ, N.testbit_odd_succ in Hb
        by lia.
      rewrite N.bits_0, Bool.andb_diag in Hb. exact Hb. }
    subst m. exists 0%N. reflexivity.
Qed.

Lemma is_power_of_two_spec (n : nat) :
  is_power_of_two n = true <-> exists k, n = 2 ^ k.
Proof.
  unfold is_power_of_two. split.
  - intros H. apply andb_prop in H as [Hnz Hl].
    apply Bool.negb_true_iff, Nat.eqb_neq in Hnz. apply N.eqb_eq in Hl.
    destruct (land_pred_zero_pow2 (N.of_nat n) ltac:(lia) Hl) as [k Hk].
    exists (N.to_nat k).
    apply (f_equal N.to_nat) in Hk. rewrite Nat2N.id in Hk.
    rewrite Hk, N2Nat.inj_pow. reflexivity.
  - intros [k ->].
    assert (Hnz : 2 ^ k <> 0) by (apply Nat.pow_nonzero; lia).
    apply andb_true_intro. split.
    + apply Bool.negb_true_iff, Nat.eqb_neq. exact Hnz.
    + apply N.eqb_eq. rewrite Nat2N.inj_pow.
      change (N.of_nat 2) with 2%N.
      rewrite N.sub_1_r, <- N.ones_equiv, N.land_ones.
      apply N.Div0.mod_same.
Qed.

(** *** The strided slices *)

Lemma evens_odds_length {A} (l : list A) :
  length (evens l) + length (odds l) = length l /\
  length (odds l) <= length (evens l) <= length (odds l) + 1.
Proof. induction l as [|x r IH]; simpl; lia. Qed.

Lemma evens_odds_pow2 {A} (l : list A) (k : nat) :
  length l = 2 ^ S k -> length (evens l) = 2 ^ k /\ length (odds l) = 2 ^ k.
Proof.
  intros H. destruct (evens_odds_length l) as [Hs Hb].
  rewrite Nat.pow_succ_r' in H. lia.
Qed.

Lemma evens_odds_repeat {A} (x : A) (m : nat) :
  evens (repeat x (2 * m)) = repeat x m /\ odds (repeat x (2 * m)) = repeat x m.
Proof.
  induction m as [|m [He Ho]]; [split; reflexivity|].
  replace (2 * S m) with (S (S (2 * m))) by lia. cbn [repeat evens odds].
  rewrite He, Ho. split; reflexivity.
Qed.

(** *** Unfolding [fft] *)

Lemma fft_not_pow2 (signal : list C) :
  is_power_of_two (length signal) = false -> fft signal = None.
Proof. funelim (fft signal); intros; congruence. Qed.

Lemma fft_one (signal : list C) :
  length signal = 1 -> fft signal = Some signal.
Proof.
  funelim (fft signal); intros; try reflexivity; exfalso;
    match goal with
    | Hl : length ?s = 1, He : is_power_of_two (length ?s) = false |- _ =>
        clear -Hl He; rewrite Hl in He; discriminate
    | Hl : length ?s = 1, He : (length ?s =? 1) = false |- _ =>
        clear -Hl He; rewrite Hl in He; discriminate
    end.
Qed.

Lemma fft_split (signal : list C) :
  is_power_of_two (length signal) = true -> length signal <> 1 ->
  fft signal =
    match fft (evens signal), fft (odds signal) with
    | Some even, Some odd => Some (combine (length signal) even odd)
    | _, _ => None
    end.
Proof.
  funelim (fft signal); intros; try congruence.
  match goal with He : (length ?s =? 1) = true, Hn : length ?s <> 1 |- _ =>
    exfalso; clear -He Hn; apply Nat.eqb_eq in He; contradiction end.
Qed.

(** *** Lengths *)

Lemma set_nth_length {A} (i : nat) (v : A) (l : list A) :
  length (set_nth i v l) = length l.
Proof.
  revert i. induction l as [|x r IH]; intros [|i]; simpl; auto.
Qed.

Lemma combine_length (n : nat) (even odd : list C) :
  length (combine n even odd) = n.
Proof.
  unfold combine.
  assert (Hf : forall ks out, length (fold_left
    (fun output k =>
       set_nth (k + n / 2) (Csub (nth k even C0) (twiddle_times n k (nth k odd C0)))
         (set_nth k (Cadd (nth k even C0) (twiddle_times n k (nth k odd C0))) output))
    ks out) = length out).
  { induction ks as [|k ks IH]; intros out; simpl; [reflexivity|].
    rewrite IH, !set_nth_length. reflexivity. }
  rewrite Hf, repeat_length. reflexivity.
Qed.

Lemma fft_length (signal output : list C) :
  fft signal = Some output -> length output = length signal.
Proof.
  revert output. funelim (fft signal); intros output Hs; try discriminate.
  - injection Hs as <-. reflexivity.
  - destruct (fft (evens signal)); [|discriminate].
    destruct (fft (odds signal)); [|discriminate].
    injection Hs as <-. apply combine_length.
Qed.

Lemma fft_pow2_some (k : nat) : forall signal : list C,
  length signal = 2 ^ k -> exists output, fft signal = Some output.
Proof.
  induction k as [|k IH]; intros signal Hl.
  - exists signal. apply fft_one. exact Hl.
  - assert (Hp : is_power_of_two (length signal) = true)
      by (apply is_power_of_two_spec; eauto).
    assert (H1 : length signal <> 1)
      by (rewrite Hl, Nat.pow_succ_r'; pose proof (Nat.pow_nonzero 2 k); lia).
    destruct (evens_odds_pow2 signal k Hl) as [He Ho].
    destruct (IH _ He) as [e Hfe]. destruct (IH _ Ho) as [o Hfo].
    rewrite (fft_split signal Hp H1), Hfe, Hfo. eauto.
Qed.

(** *** The zero window *)

Lemma set_nth_repeat {A} (x : A) (i n : nat) :
  set_nth i x (repeat x n) = repeat x n.
Proof.
  revert i. induction n as [|n IH]; intros [|i]; simpl; rewrite ?IH; reflexivity.
Qed.

Lemma twiddle_times_zero (n k : nat) : twiddle_times n k C0 = C0.
Proof. unfold twiddle_times, Cmul, C0. simpl. f_equal; ring. Qed.

Lemma combine_zero (n m : nat) :
  combine n (repeat C0 m) (repeat C0 m) = repeat C0 n.
Proof.
  unfold combine. generalize (seq 0 (n / 2)) as ks.
  induction ks as [|k ks IH]; simpl; [reflexivity|].
  rewrite !nth_repeat, twiddle_times_zero.
  replace (Cadd C0 C0) with C0 by (unfold Cadd, C0; simpl; f_equal; ring).
  replace (Csub C0 C0) with C0 by (unfold Csub, C0; simpl; f_equal; ring).
  rewrite !set_nth_repeat. exact IH.
Qed.

Lemma fft_zero (k : nat) : fft (repeat C0 (2 ^ k)) = Some (repeat C0 (2 ^ k)).
Proof.
  induction k as [|k IH].
  - apply fft_one. reflexivity.
  - assert (Hp : is_power_of_two (length (repeat C0 (2 ^ S k))) = true)
      by (apply is_power_of_two_spec; rewrite repeat_length; eauto).
    assert (H1 : length (repeat C0 (2 ^ S k)) <> 1)
      by (rewrite repeat_length, Nat.pow_succ_r'; pose proof (Nat.pow_nonzero 2 k); lia).
    rewrite (fft_split _ Hp H1), repeat_length, Nat.pow_succ_r'.
    destruct (evens_odds_repeat C0 (2 ^ k)) as [-> ->].
    rewrite IH, combine_zero. reflexivity.
Qed.

(** *** Claims *)

(** C2: for every power-of-two length [2 ^ k], the magnitude spectrum of
    the all-zero window is all zeros, and [fft] returns a one-sample signal
    unchanged. *)
Theorem fft_zero_window_and_base_case :
  (forall k, spectrum (repeat 0%R (2 ^ k)) = Some (repeat 0%R (2 ^ k))) /\
  (forall x : C, fft [x] = Some [x]).
Proof.
  split.
  - intros k. unfold spectrum. rewrite map_repeat.
    change (Cfrom 0%R) with C0. rewrite fft_zero. simpl. rewrite map_repeat.
    unfold Cnorm, C0. simpl.
    rewrite Rmult_0_l, Rplus_0_l, sqrt_0. reflexivity.
  - intros x. apply fft_one. reflexivity.
Qed.

(** C3: [fft] panics exactly on signals whose length is not a power of two
    (the check is made again in every recursive call), and on the others
    it returns a signal of the same length. *)
Theorem fft_power_of_two_precondition (signal : list C) :
  (fft signal = None <-> ~ (exists k, length signal = 2 ^ k)) /\
  (forall output, fft signal = Some output -> length output = length signal).
Proof.
  split; [split|].
  - intros Hn [k Hk]. destruct (fft_pow2_some k signal Hk) as [o Ho]. congruence.
  - intros Hn. apply fft_not_pow2.
    destruct (is_power_of_two (length signal)) eqn:Hp; [|reflexivity].
    exfalso. apply Hn. apply is_power_of_two_spec. exact Hp.
  - apply fft_length.
Qed.

Lemma fft_power_of_two_precondition_witness :
  fft (repeat C0 3) = None /\ ~ (exists k, length (repeat C0 3) = 2 ^ k).
Proof.
  assert (H : fft (repeat C0 3) = None)
    by (apply fft_not_pow2; rewrite repeat_length; reflexivity).
  split; [exact H|].
  exact (proj1 (proj1 (fft_power_of_two_precondition (repeat C0 3))) H).
Defined.

(** The lengths named by the spec: 0, 3, 100 and 4095 make [fft] panic. *)
Example fft_panics_on_named_lengths :
  fft (repeat C0 0) = None /\ fft (repeat C0 3) = None /\
  fft (repeat C0 100) = None /\ fft (repeat C0 4095) = None.
Proof.
  repeat split; apply fft_not_pow2; rewrite repeat_length; vm_compute; reflexivity.
Qed.

End FFTFacts.

(* ------------------------------------------------------------------ *)
(** ** [NoteStatus] *)
(* ------------------------------------------------------------------ *)

Module NoteFacts.
Import Note.
Local Open Scope R_scope.

Lemma Int_part_between (x : R) (z : Z) :
  IZR z <= x < IZR z + 1 -> Int_part x = z.
Proof.
  intros [Hlo Hhi]. unfold Int_part.
  rewrite <- (tech_up x (z + 1)); [lia| |]; rewrite plus_IZR; lra.
Qed.

Lemma Int_part_IZR (z : Z) : Int_part (IZR z) = z.
Proof. apply Int_part_between. lra. Qed.

Lemma trunc_IZR (z : Z) : trunc (IZR z) = z.
Proof.
  unfold trunc. destruct (Rle_dec 0 (IZR z)).
  - apply Int_part_IZR.
  - rewrite <- opp_IZR, Int_part_IZR. lia.
Qed.

Lemma round_IZR (z : Z) : round (IZR z) = IZR z.
Proof.
  unfold round. f_equal. destruct (Rle_dec 0 (IZR z)).
  - apply Int_part_between. lra.
  - rewrite <- opp_IZR.
    rewrite (Int_part_between (IZR (- z) + / 2) (- z)) by lra. lia.
Qed.

Lemma cast_sat_IZR (lo hi z : Z) :
  (lo <= z <= hi)%Z -> cast_sat lo hi (IZR z) = z.
Proof. intros H. unfold cast_sat. rewrite trunc_IZR. lia. Qed.

Lemma as_usize_IZR_neg (z : Z) : (z < 0)%Z -> as_usize (IZR z) = 0%Z.
Proof. intros H. unfold as_usize, cast_sat. rewrite trunc_IZR. lia. Qed.

Lemma note_number_to_name_IZR (i : Z) :
  (1 <= i)%Z -> (i <= 2 ^ 64)%Z ->
  note_number_to_name (IZR i) = nth_error notes_names (Z.to_nat (i - 1)).
Proof.
  intros H1 H2. unfold note_number_to_name, as_usize.
  replace (IZR i - 1) with (IZR (i - 1)) by (rewrite minus_IZR; reflexivity).
  rewrite cast_sat_IZR by lia. reflexivity.
Qed.

Lemma frequency_to_key_number_440 : frequency_to_key_number 440 = 49.
Proof.
  unfold frequency_to_key_number, log2.
  replace (440 / 440) with 1 by field. rewrite ln_1. field.
  pose proof ln_lt_2. lra.
Qed.

(** C8: [note_number_to_name] sends the pitch-class values 1, ..., 12 to
    "C ", "C#", "D ", "D#", "E ", "F ", "F#", "G ", "G#", "A ", "A#", "B "
    in this order. *)
Theorem note_number_to_name_table :
  map (fun i => note_number_to_name (IZR i)) [1; 2; 3; 4; 5; 6; 7; 8; 9; 10; 11; 12]%Z =
  map Some ["C "; "C#"; "D "; "D#"; "E "; "F "; "F#"; "G "; "G#"; "A "; "A#"; "B "]%string.
Proof.
  cbn [map]. rewrite !note_number_to_name_IZR by lia. reflexivity.
Qed.

(** C6: the key number of 440 Hz is exactly 49, and every frequency whose
    key number is an integer gets error percentage 0. *)
Theorem key_number_440_and_zero_error :
  frequency_to_key_number 440 = 49 /\
  (forall (f : R) (z : Z), frequency_to_key_number f = IZR z ->
     error_percentage (new f) = 0%Z).
Proof.
  split; [apply frequency_to_key_number_440|].
  intros f z Hk. unfold new. simpl. rewrite Hk, round_IZR.
  unfold get_error_percentage.
  replace ((key_to_raw_note_number (IZR z) - key_to_raw_note_number (IZR z)) * 100)
    with (IZR 0) by ring.
  rewrite round_IZR. apply cast_sat_IZR. lia.
Qed.

Lemma key_number_440_and_zero_error_witness :
  frequency_to_key_number 440 = IZR 49 /\ error_percentage (new 440) = 0%Z.
Proof.
  assert (H : frequency_to_key_number 440 = IZR 49)
    by exact (proj1 key_number_440_and_zero_error).
  split; [exact H|].
  exact (proj2 key_number_440_and_zero_error 440 49%Z H).
Defined.

(** C5 (code defect): for 440 Hz (key 49) the rounded note number is
    [((49 - 1) % 12) - 2 = -2], outside the documented range 1..12;
    [(-3.0) as usize] saturates to 0, so the note is displayed as "C ",
    and the octave [floor(49 / 12) + 1] is 5. *)
Theorem a4_displays_C_octave_5 :
  key_number (new 440) = 49 /\
  note_number (new 440) = -2 /\
  note_number_to_name (note_number (new 440)) = Some "C "%string /\
  get_octave_by_key_number (key_number (new 440)) = 5%Z.
Proof.
  assert (Hk : key_number (new 440) = IZR 49)
    by (unfold new; simpl; apply frequency_to_key_number_440).
  assert (Hn : note_number (new 440) = -2).
  { unfold new. simpl. rewrite frequency_to_key_number_440.
    change 49 with (IZR 49). rewrite round_IZR.
    unfold key_to_raw_note_number, fmod.
    replace ((IZR 49 - 1) / 12) with (IZR 4) by field.
    rewrite trunc_IZR. lra. }
  split; [exact Hk|]. split; [exact Hn|]. split.
  - rewrite Hn. unfold note_number_to_name.
    replace (-2 - 1) with (IZR (-3)) by lra.
    rewrite as_usize_IZR_neg by lia. reflexivity.
  - rewrite Hk. unfold get_octave_by_key_number, floor.
    rewrite round_IZR.
    rewrite (Int_part_between (IZR 49 / 12) 4) by lra.
    replace (IZR 4 + 1) with (IZR 5) by lra.
    apply cast_sat_IZR. lia.
Qed.

End NoteFacts.

(* ------------------------------------------------------------------ *)
(** ** [Graph::run] *)
(* ------------------------------------------------------------------ *)

Module GraphFacts.
Import Graph.
Local Open Scope Z_scope.

Lemma wrap_i32_small (z : Z) : - 2 ^ 31 <= z <= i32_max -> wrap_i32 z = z.
Proof.
  unfold wrap_i32, i32_max. intros H.
  rewrite Z.mod_small by lia. lia.
Qed.

Lemma select_bin_product (bw mb : Z) :
  0 <= bw -> 0 <= mb -> bw * mb <= i32_max ->
  wrap_i32 (bw * wrap_i32 mb) = bw * mb.
Proof.
  intros Hbw Hmb Hp. unfold i32_max in *.
  destruct (Z.eq_dec bw 0) as [->|Hnz].
  - reflexivity.
  - rewrite (wrap_i32_small mb) by (unfold i32_max; nia).
    apply wrap_i32_small. unfold i32_max. lia.
Qed.

(** C7 (as amended): for a bar width and a number of displayed bins whose
    product fits in [i32], a cursor [0 <= c < barWidth * maxBinsDisplayed]
    selects bin [(c / barWidth) mod maxBinsDisplayed] (bin 0 for cursor 0),
    a cursor at or beyond [barWidth * maxBinsDisplayed] selects nothing,
    and so with [maxBinsDisplayed = 10] and [barWidth = 5] the cursor 52
    (beyond the last bar, at 50) selects nothing. *)
Theorem select_bin_spec (c bw mb : Z) :
  0 <= bw -> 0 <= mb -> bw * mb <= i32_max -> - 2 ^ 31 <= c <= i32_max ->
  (0 <= c < bw * mb -> select_bin c bw mb = Ok (Some ((c / bw) mod mb))) /\
  (0 < bw * mb -> select_bin 0 bw mb = Ok (Some 0)) /\
  (bw * mb <= c -> select_bin c bw mb = Ok None) /\
  select_bin 52 5 10 = Ok None.
Proof.
  intros Hbw Hmb Hp Hc.
  assert (Hin : forall c', 0 <= c' < bw * mb ->
            select_bin c' bw mb = Ok (Some ((c' / bw) mod mb))).
  { intros c' Hc'. unfold select_bin. rewrite select_bin_product by assumption.
    assert (Hbw0 : 0 < bw) by nia. assert (Hmb0 : 0 < mb) by nia.
    assert (Hq : c' / bw <= c') by (apply Z.div_le_upper_bound; nia).
    assert (Hq0 : 0 <= c' / bw) by (apply Z.div_pos; lia).
    destruct (Z.leb_spec (bw * mb) c') as [H|H]; [lia|].
    destruct (Z.eqb_spec bw 0) as [H0|H0]; [lia|].
    destruct (Z.eqb_spec c' (- 2 ^ 31)) as [H1|H1]; [lia|]. simpl.
    destruct (Z.eqb_spec mb 0) as [H2|H2]; [lia|].
    rewrite Z.quot_div_nonneg by lia. unfold usize_of_i32.
    rewrite (Z.mod_small (c' / bw)) by (unfold i32_max in *; lia).
    reflexivity. }
  split; [exact (Hin c)|]. split; [|split].
  - intros Hpos. rewrite (Hin 0) by lia. rewrite Z.div_0_l by nia.
    rewrite Z.mod_0_l by nia. reflexivity.
  - intros Hge. unfold select_bin. rewrite select_bin_product by assumption.
    destruct (Z.leb_spec (bw * mb) c); [reflexivity | lia].
  - reflexivity.
Qed.

Lemma select_bin_spec_witness :
  (0 <= 5 /\ 0 <= 10 /\ 5 * 10 <= i32_max /\ - 2 ^ 31 <= 7 <= i32_max) /\
  select_bin 7 5 10 = Ok (Some ((7 / 5) mod 10)).
Proof.
  assert (H : 0 <= 5 /\ 0 <= 10 /\ 5 * 10 <= i32_max /\ - 2 ^ 31 <= 7 <= i32_max)
    by (unfold i32_max; lia).
  split; [exact H|].
  destruct H as (H1 & H2 & H3 & H4).
  apply (proj1 (select_bin_spec 7 5 10 H1 H2 H3 H4)). lia.
Defined.

(** C7 fails as stated: with [maxBinsDisplayed = 10] and [barWidth = 5]
    the cursor 52 lies beyond the last bar (50) and selects nothing, not
    bin [(52 / 5) mod 10 = 0]. *)
Lemma select_bin_52_counterexample :
  select_bin 52 5 10 = Ok None /\ select_bin 52 5 10 <> Ok (Some ((52 / 5) mod 10)).
Proof. split; [reflexivity | discriminate]. Qed.

(** C9: one [run] sets the working copy [data_buffer] to the shared
    spectrum exactly when the pause flag is clear, leaves the rest of the
    [Graph] as it was, and takes the lock of the shared spectrum exactly
    when the pause flag is clear. *)
Theorem run_pause_frame_effect (g : Graph) (sh : Shared) (sr : nat) :
  let '(g', locks, _) := run g sh sr in
  g' = (if paused sh then g else set_data_buffer g (data_locker sh)) /\
  data_buffer g' = (if paused sh then data_buffer g else data_locker sh) /\
  (In LockDataLocker locks <-> paused sh = false).
Proof.
  unfold run.
  destruct (paused sh) eqn:Hp;
  (match goal with |- context [if (?a =? 0)%nat then _ else _] =>
     destruct (a =? 0)%nat end;
   [| repeat match goal with |- context [if ?b then _ else _] => destruct b end]);
  simpl; (split; [reflexivity|]); (split; [reflexivity|]);
  rewrite ?in_app_iff; simpl; intuition (discriminate || congruence).
Qed.

End GraphFacts.

Module StreamFacts.
Import Stream.

Lemma callback_window_length {A} (W : nat) (buf data w : list A) (buf' : list A) :
  Accumulator.callback W buf data = (buf', Some w) -> length w = W.
Proof.
  unfold Accumulator.callback.
  repeat match goal with |- context [if ?b then _ else _] => destruct b eqn:? end;
  intros H; inversion H; subst; try (apply Nat.eqb_eq; assumption).
Qed.

(** With [main]'s [buffer_size = 4096] the callback never makes [fft]
    panic: every window it hands over has a power-of-two length. *)
Lemma data_callback_no_panic (buf result data : list R) :
  data_callback buffer_size buf result data <> Panic.
Proof.
  unfold data_callback.
  destruct (Accumulator.callback buffer_size buf data) as [buf' [w|]] eqn:Hc;
    [|discriminate].
  apply callback_window_length in Hc.
  unfold FFT.spectrum.
  destruct (FFTFacts.fft_pow2_some 12 (map Cplx.Cfrom w)) as [o Ho].
  { rewrite length_map, Hc. reflexivity. }
  rewrite Ho. discriminate.
Qed.

End StreamFacts.

(* ================================================================== *)
(** * Further properties of the code *)
(* ================================================================== *)

(* ------------------------------------------------------------------ *)
(** ** The accumulator *)
(* ------------------------------------------------------------------ *)

Module AccumulatorExtra.
Import Accumulator.

(** While the buffer holds fewer than [buffer_size] samples, a chunk that
    does not complete the window is appended, and a chunk that completes it
    is split at index [buffer_size - buf.len()]: the window is the buffer
    followed by the head of the chunk, and the tail becomes the buffer. *)
Theorem callback_split_at_boundary {A} (W : nat) (buf data : list A) :
  length buf < W ->
  callback W buf data =
    if length buf + length data <? W then (buf ++ data, None)
    else (skipn (W - length buf) data, Some (buf ++ firstn (W - length buf) data)).
Proof. apply AccumulatorFacts.callback_below. Qed.

Lemma callback_split_at_boundary_witness :
  1 < 3 /\ callback 3 [1] [2; 3; 4; 5] = (skipn 2 [2; 3; 4; 5], Some ([1] ++ firstn 2 [2; 3; 4; 5])).
Proof.
  assert (H : 1 < 3) by lia. split; [exact H|].
  exact (callback_split_at_boundary 3 [1] [2; 3; 4; 5] H).
Defined.

End AccumulatorExtra.

(* ------------------------------------------------------------------ *)
(** ** [Graph::run] *)
(* ------------------------------------------------------------------ *)

Module GraphExtra.
Import Graph.

Lemma select_bin_no_panic (c bw mb : Z) :
  (0 <= c)%Z -> (0 < mb)%Z -> select_bin c bw mb <> Panic.
Proof.
  intros Hc Hmb. unfold select_bin.
  destruct (Z.leb_spec (wrap_i32 (bw * wrap_i32 mb)) c); [discriminate|].
  destruct (Z.eqb_spec bw 0) as [->|Hbw].
  - exfalso. unfold wrap_i32 in *. simpl in *. lia.
  - destruct (Z.eqb_spec c (- 2 ^ 31)); [lia|]. simpl.
    destruct (Z.eqb_spec mb 0); [lia|]. discriminate.
Qed.

Lemma select_bin_in_range (c bw mb i : Z) :
  (0 <= mb)%Z -> select_bin c bw mb = Ok (Some i) -> (0 <= i < mb)%Z.
Proof.
  intros Hmb0. unfold select_bin.
  repeat match goal with |- context [if ?b then _ else _] => destruct b eqn:? end;
    try discriminate.
  intros H. injection H as <-.
  match goal with Hm : (mb =? 0)%Z = false |- _ => apply Z.eqb_neq in Hm end.
  apply Z.mod_pos_bound. lia.
Qed.

(** The working copy after the refresh at the start of [run]. *)
Lemma run_unfold (g : Graph) (sh : Shared) (sr : nat) :
  0 < sr -> max_displayed_frequency g <= sr ->
  let b := if paused sh then data_buffer g else data_locker sh in
  let mb := max_displayed_frequency g * length b / sr in
  exists locks,
    run g sh sr =
      (if paused sh then g else set_data_buffer g (data_locker sh), locks,
       if length b <? buffer_size g then Ok None
       else select_bin (mouse_x sh) (frequency_bar_width (width g) (Z.of_nat mb))
              (Z.of_nat mb)) /\
    (In LockMouseX locks <-> buffer_size g <= length b).
Proof.
  intros Hsr Hmf b mb.
  assert (Hmb : mb <= length b).
  { unfold mb. apply Nat.Div0.div_le_upper_bound. nia. }
  assert (Hsr0 : (sr =? 0) = false) by (apply Nat.eqb_neq; lia).
  assert (Hlt : (length b <? mb) = false) by (apply Nat.ltb_ge; exact Hmb).
  unfold run. rewrite Hsr0.
  unfold mb, b in *.
  destruct (paused sh); simpl in *;
    rewrite (proj2 (Nat.ltb_ge _ _) Hmb);
    (destruct (_ <? buffer_size g) eqn:Hbs;
     [ apply Nat.ltb_lt in Hbs | apply Nat.ltb_ge in Hbs ]);
    eexists; (split; [reflexivity|]); simpl; rewrite ?in_app_iff; simpl;
    intuition (try discriminate; try lia).
Qed.

(** Before the first full window (the working copy holds fewer than
    [buffer_size] values), [run] selects no bin and does not take the
    [mouse_x] lock, provided the sample rate is positive and the maximum
    displayed frequency does not exceed it. *)
Theorem run_startup_selects_nothing (g : Graph) (sh : Shared) (sr : nat) :
  0 < sr -> max_displayed_frequency g <= sr ->
  length (if paused sh then data_buffer g else data_locker sh) < buffer_size g ->
  let '(_, locks, out) := run g sh sr in
  out = Ok None /\ ~ In LockMouseX locks.
Proof.
  intros Hsr Hmf Hlen.
  destruct (run_unfold g sh sr Hsr Hmf) as [locks [Hrun Hin]].
  rewrite Hrun. split.
  - apply Nat.ltb_lt in Hlen. rewrite Hlen. reflexivity.
  - rewrite Hin. lia.
Qed.

Lemma run_startup_selects_nothing_witness :
  let g := mkGraph 10 10 4 5 [] in
  let sh := mkShared [0%R; 0%R] false 3 in
  0 < 10 /\ max_displayed_frequency g <= 10 /\
  length (if paused sh then data_buffer g else data_locker sh) < buffer_size g /\
  (let '(_, locks, out) := run g sh 10 in out = Ok None /\ ~ In LockMouseX locks).
Proof.
  intros g sh.
  assert (H1 : 0 < 10) by lia.
  assert (H2 : max_displayed_frequency g <= 10) by (simpl; lia).
  assert (H3 : length (if paused sh then data_buffer g else data_locker sh) < buffer_size g)
    by (simpl; lia).
  refine (conj H1 (conj H2 (conj H3 _))).
  exact (run_startup_selects_nothing g sh 10 H1 H2 H3).
Defined.

(** With a positive sample rate, a maximum displayed frequency not above
    it, a full window that shows at least one bin, and a cursor at a
    non-negative position, [run] never panics, and a selected bin is an
    index into the displayed bars ([0 <= i < max_bins_displayed_len]),
    so [main]'s [bars[frequency_data_index]] is in bounds. *)
Theorem run_no_panic_and_bin_in_range (g : Graph) (sh : Shared) (sr : nat) :
  0 < sr -> max_displayed_frequency g <= sr ->
  0 < max_displayed_frequency g * buffer_size g / sr ->
  (0 <= mouse_x sh)%Z ->
  let '(g', _, out) := run g sh sr in
  out <> Panic /\
  (forall i, out = Ok (Some i) ->
     (0 <= i < Z.of_nat (max_displayed_frequency g' * length (data_buffer g') / sr))%Z).
Proof.
  intros Hsr Hmf Hpos Hc.
  destruct (run_unfold g sh sr Hsr Hmf) as [locks [Hrun _]].
  rewrite Hrun.
  set (b := if paused sh then data_buffer g else data_locker sh) in *.
  assert (Hg : data_buffer (if paused sh then g else set_data_buffer g (data_locker sh)) = b
            /\ max_displayed_frequency (if paused sh then g else set_data_buffer g (data_locker sh))
               = max_displayed_frequency g)
    by (unfold b; destruct (paused sh); split; reflexivity).
  destruct Hg as [Hgb Hgm]. rewrite Hgb, Hgm.
  destruct (length b <? buffer_size g) eqn:Hbs.
  - split; [discriminate|]. intros i Hi. discriminate.
  - apply Nat.ltb_ge in Hbs.
    assert (Hmb : 0 < max_displayed_frequency g * length b / sr).
    { eapply Nat.lt_le_trans; [exact Hpos|].
      apply Nat.Div0.div_le_mono. apply Nat.mul_le_mono_l. exact Hbs. }
    split.
    + apply select_bin_no_panic; lia.
    + intros i Hi. apply select_bin_in_range in Hi; lia.
Qed.

Lemma run_no_panic_and_bin_in_range_witness :
  let g := mkGraph 10 10 4 5 [0%R; 0%R; 0%R; 0%R] in
  let sh := mkShared [0%R; 0%R; 0%R; 0%R] false 7 in
  (0 < 10 /\ max_displayed_frequency g <= 10 /\
   0 < max_displayed_frequency g * buffer_size g / 10 /\ (0 <= mouse_x sh)%Z) /\
  run g sh 10 = (set_data_buffer g (data_locker sh), [LockPaused; LockDataLocker; LockMouseX],
                 Ok (Some 1%Z)) /\
  (let '(g', _, out) := run g sh 10 in
   out <> Panic /\
   (forall i, out = Ok (Some i) ->
      (0 <= i < Z.of_nat (max_displayed_frequency g' * length (data_buffer g') / 10))%Z)).
Proof.
  intros g sh.
  assert (H1 : 0 < 10) by lia.
  assert (H2 : max_displayed_frequency g <= 10) by (simpl; lia).
  assert (H3 : 0 < max_displayed_frequency g * buffer_size g / 10) by (vm_compute; lia).
  assert (H4 : (0 <= mouse_x sh)%Z) by (simpl; lia).
  split; [tauto|]. split; [vm_compute; reflexivity|].
  exact (run_no_panic_and_bin_in_range g sh 10 H1 H2 H3 H4).
Defined.

End GraphExtra.

(* ------------------------------------------------------------------ *)
(** ** [NoteStatus] *)
(* ------------------------------------------------------------------ *)

Module NoteExtra.
Import Note NoteFacts.
Local Open Scope R_scope.

Lemma Int_part_bounds (x : R) : IZR (Int_part x) <= x < IZR (Int_part x) + 1.
Proof. destruct (base_Int_part x) as [H1 H2]. lra. Qed.

Lemma trunc_bounds (x : R) :
  (0 <= x -> IZR (trunc x) <= x < IZR (trunc x) + 1) /\
  (x < 0 -> IZR (trunc x) - 1 < x <= IZR (trunc x)).
Proof.
  unfold trunc. destruct (Rle_dec 0 x) as [H|H].
  - split; intros; [apply Int_part_bounds | lra].
  - split; intros; [lra|]. rewrite opp_IZR.
    pose proof (Int_part_bounds (- x)). lra.
Qed.

Lemma fmod12_bounds (x : R) :
  - 12 < fmod x 12 < 12 /\ (0 <= x -> 0 <= fmod x 12 < 12).
Proof.
  unfold fmod. destruct (trunc_bounds (x / 12)) as [Hp Hn].
  destruct (Rle_dec 0 (x / 12)) as [H|H].
  - specialize (Hp H). split; [lra|]. intros _. lra.
  - assert (Hx : x / 12 < 0) by lra. specialize (Hn Hx).
    split; [lra|]. intros Hx0. exfalso. lra.
Qed.

Lemma trunc_ge_12_iff (x : R) : (12 <= trunc x)%Z <-> 12 <= x.
Proof.
  destruct (trunc_bounds x) as [Hp Hn]. split; intros H.
  - destruct (Rle_dec 0 x) as [Hx|Hx].
    + apply IZR_le in H. specialize (Hp Hx). lra.
    + specialize (Hn ltac:(lra)). apply IZR_le in H. lra.
  - specialize (Hp ltac:(lra)).
    assert (IZR 11 < IZR (trunc x)) by lra. apply lt_IZR in H0. lia.
Qed.

Lemma trunc_le_0 (x : R) : x < 1 -> (trunc x <= 0)%Z.
Proof.
  intros Hx. destruct (trunc_bounds x) as [Hp Hn].
  destruct (Rle_dec 0 x) as [H|H].
  - specialize (Hp H). assert (IZR (trunc x) < IZR 1) by lra.
    apply lt_IZR in H0. lia.
  - unfold trunc. destruct (Rle_dec 0 x) as [H'|H']; [contradiction|].
    pose proof (Int_part_bounds (- x)) as B.
    assert (IZR (-1) < IZR (Int_part (- x))) as B' by lra.
    apply lt_IZR in B'. lia.
Qed.

Lemma round_nonneg (x : R) : 0 <= x -> round x = IZR (Int_part (x + / 2)).
Proof. intros H. unfold round. destruct (Rle_dec 0 x); [reflexivity | contradiction]. Qed.

Lemma name_lookup_bounds (x : R) :
  (note_number_to_name x = None <-> 13 <= x) /\
  (x < 2 -> note_number_to_name x = Some "C "%string).
Proof.
  unfold note_number_to_name, as_usize, cast_sat. split.
  - rewrite nth_error_None. unfold notes_names. simpl length.
    transitivity (12 <= trunc (x - 1))%Z;
      [| rewrite trunc_ge_12_iff; split; intros; lra].
    split; intros H.
    + destruct (Z_le_gt_dec 12 (trunc (x - 1))) as [Hle|Hgt]; [exact Hle|]. exfalso.
      assert (Hlt : (Z.max 0 (Z.min (2 ^ 64 - 1) (trunc (x - 1))) < 12)%Z) by lia.
      apply Z2Nat.inj_lt in Hlt; [|lia|lia]. simpl in Hlt. lia.
    + assert (Hle : (12 <= Z.max 0 (Z.min (2 ^ 64 - 1) (trunc (x - 1))))%Z) by lia.
      apply Z2Nat.inj_le in Hle; [|lia|lia]. simpl in Hle. lia.
  - intros Hx. pose proof (trunc_le_0 (x - 1) ltac:(lra)) as Ht.
    replace (Z.max 0 (Z.min (2 ^ 64 - 1) (trunc (x - 1)))) with 0%Z by lia.
    reflexivity.
Qed.

(** The note-name lookup panics exactly for values from 13 on, and every
    value below 2 (in particular the note numbers -2, -1 and 0 that
    [key_to_raw_note_number] gives to A, A# and B) is shown as "C ". *)
Theorem note_number_to_name_bounds (x : R) :
  (note_number_to_name x = None <-> 13 <= x) /\
  (x < 2 -> note_number_to_name x = Some "C "%string).
Proof. exact (name_lookup_bounds x). Qed.

Lemma note_number_to_name_bounds_witness :
  (IZR (-2) < 2) /\ note_number_to_name (IZR (-2)) = Some "C "%string.
Proof.
  assert (H : IZR (-2) < 2) by lra. split; [exact H|].
  exact (proj2 (note_number_to_name_bounds (IZR (-2))) H).
Defined.

(** Whatever the frequency, the note name printed by [main] is found:
    the rounded note number is below 10, so the lookup never panics. *)
Theorem display_name_never_panics (f : R) :
  note_number_to_name (note_number (new f)) <> None.
Proof.
  unfold new. simpl. unfold key_to_raw_note_number.
  destruct (fmod12_bounds (round (frequency_to_key_number f) - 1)) as [H _].
  rewrite (proj1 (name_lookup_bounds _)). lra.
Qed.

(** For key numbers from 1 on, the raw note number lies in [-2, 10):
    [key_to_raw_note_number] does not produce the range 1..12 named in its
    comment. *)
Theorem key_to_raw_note_number_range (key : R) :
  1 <= key -> -2 <= key_to_raw_note_number key < 10.
Proof.
  intros Hk. unfold key_to_raw_note_number.
  destruct (fmod12_bounds (key - 1)) as [_ H]. specialize (H ltac:(lra)). lra.
Qed.

Lemma key_to_raw_note_number_range_witness :
  1 <= 49 /\ -2 <= key_to_raw_note_number 49 < 10.
Proof.
  assert (H : 1 <= 49) by lra. split; [exact H|].
  exact (key_to_raw_note_number_range 49 H).
Defined.

Lemma ln2_pos : 0 < ln 2.
Proof. rewrite <- ln_1. apply ln_increasing; lra. Qed.

Lemma trunc_between (x : R) (z : Z) :
  0 <= x -> IZR z <= x < IZR z + 1 -> trunc x = z.
Proof.
  intros H0 H. unfold trunc. destruct (Rle_dec 0 x); [|contradiction].
  now apply Int_part_between.
Qed.

Lemma round_bounds (x : R) : x - / 2 <= round x <= x + / 2.
Proof.
  unfold round. destruct (Rle_dec 0 x) as [H|H].
  - pose proof (Int_part_bounds (x + / 2)). lra.
  - rewrite opp_IZR. pose proof (Int_part_bounds (- x + / 2)). lra.
Qed.

Lemma round_int (x : R) : exists z, round x = IZR z.
Proof. unfold round. eexists. reflexivity. Qed.

Lemma frequency_to_key_number_pow2 (x : R) :
  frequency_to_key_number (440 * Rpower 2 (x / 12)) = x + 49.
Proof.
  pose proof ln2_pos. unfold frequency_to_key_number, log2, Rpower.
  replace (440 * exp (x / 12 * ln 2) / 440) with (exp (x / 12 * ln 2)) by field.
  rewrite ln_exp. field. lra.
Qed.

Lemma error_percentage_key (k : R) :
  trunc ((k - 1) / 12) = trunc ((round k - 1) / 12) ->
  get_error_percentage (key_to_raw_note_number k) (key_to_raw_note_number (round k)) =
  as_i8 (round ((k - round k) * 100)).
Proof.
  intros Hq. unfold get_error_percentage, key_to_raw_note_number, fmod.
  rewrite <- Hq. f_equal. f_equal. ring.
Qed.

(** Doubling the frequency adds 12 to the key number (one octave), and the
    key number strictly increases with the frequency. *)
Theorem frequency_to_key_number_octave_monotone (f g : R) :
  0 < f -> f < g ->
  frequency_to_key_number (2 * f) = frequency_to_key_number f + 12 /\
  frequency_to_key_number f < frequency_to_key_number g.
Proof.
  intros Hf Hg. pose proof ln2_pos. unfold frequency_to_key_number, log2. split.
  - replace (2 * f / 440) with (2 * (f / 440)) by field.
    rewrite ln_mult by (try apply Rdiv_lt_0_compat; lra). field. lra.
  - apply Rplus_lt_compat_r, Rmult_lt_compat_l; [lra|].
    unfold Rdiv. apply Rmult_lt_compat_r; [apply Rinv_0_lt_compat; lra|].
    apply ln_increasing; [apply Rdiv_lt_0_compat; lra|].
    unfold Rdiv. apply Rmult_lt_compat_r; [|lra]. apply Rinv_0_lt_compat. lra.
Qed.

Lemma frequency_to_key_number_octave_monotone_witness :
  0 < 440 /\ 440 < 880 /\
  frequency_to_key_number (2 * 440) = frequency_to_key_number 440 + 12 /\
  frequency_to_key_number 440 < frequency_to_key_number 880.
Proof.
  assert (H1 : 0 < 440) by lra. assert (H2 : 440 < 880) by lra.
  split; [exact H1|]. split; [exact H2|].
  exact (frequency_to_key_number_octave_monotone 440 880 H1 H2).
Defined.

(** For a whole key number [z >= 1], the name shown is the one at index
    [(z - 1) mod 12 - 3] of [notes_names], and "C " for the first three
    residues (A, A# and B are folded onto "C "). *)
Theorem integer_key_note_name (z : Z) :
  (1 <= z)%Z ->
  note_number_to_name (key_to_raw_note_number (IZR z)) =
  if ((z - 1) mod 12 <? 3)%Z then Some "C "%string
  else nth_error notes_names (Z.to_nat ((z - 1) mod 12 - 3)).
Proof.
  intros Hz.
  pose proof (Z.div_mod (z - 1) 12 ltac:(lia)) as Hdm.
  pose proof (Z.mod_pos_bound (z - 1) 12 ltac:(lia)) as Hr.
  set (q := ((z - 1) / 12)%Z) in *. set (r := ((z - 1) mod 12)%Z) in *.
  assert (Hq : (0 <= q)%Z) by lia.
  assert (HzR : IZR z = 12 * IZR q + IZR r + 1).
  { replace z with (12 * q + r + 1)%Z by lia.
    rewrite !plus_IZR, mult_IZR. reflexivity. }
  apply IZR_le in Hq. destruct Hr as [Hr0 Hr1].
  apply IZR_le in Hr0. apply IZR_lt in Hr1.
  unfold key_to_raw_note_number, fmod.
  rewrite (trunc_between ((IZR z - 1) / 12) q) by lra.
  replace (IZR z - 1 - IZR q * 12 - 2) with (IZR (r - 2))
    by (rewrite minus_IZR; lra).
  unfold note_number_to_name, as_usize, cast_sat.
  replace (IZR (r - 2) - 1) with (IZR (r - 3)) by (rewrite !minus_IZR; lra).
  rewrite trunc_IZR.
  apply le_IZR in Hr0. apply lt_IZR in Hr1.
  destruct (r <? 3)%Z eqn:E.
  - apply Z.ltb_lt in E.
    replace (Z.max 0 (Z.min (2 ^ 64 - 1) (r - 3))) with 0%Z by lia. reflexivity.
  - apply Z.ltb_ge in E.
    f_equal. f_equal. lia.
Qed.

Lemma integer_key_note_name_witness :
  (1 <= 53)%Z /\ note_number_to_name (key_to_raw_note_number (IZR 53)) = Some "C#"%string.
Proof.
  assert (H : (1 <= 53)%Z) by lia. split; [exact H|].
  rewrite (integer_key_note_name 53 H). vm_compute. reflexivity.
Defined.

(** When the key number and its rounding fall in the same 12-key block of
    [key_to_raw_note_number], the error percentage of [NoteStatus::new] is
    the rounded distance to the nearest key in percent, between -50 and
    50. *)
Theorem error_percentage_within_half (f : R) :
  let k := frequency_to_key_number f in
  trunc ((k - 1) / 12) = trunc ((round k - 1) / 12) ->
  (-50 <= error_percentage (new f) <= 50)%Z /\
  IZR (error_percentage (new f)) = round ((k - round k) * 100).
Proof.
  intros k Hq. unfold new. simpl. fold k.
  rewrite (error_percentage_key k Hq).
  destruct (round_int ((k - round k) * 100)) as [e He]. rewrite He.
  pose proof (round_bounds k) as Hk.
  pose proof (round_bounds ((k - round k) * 100)) as Hy. rewrite He in Hy.
  assert (IZR (-51) < IZR e < IZR 51) as [H1 H2] by lra.
  apply lt_IZR in H1. apply lt_IZR in H2.
  unfold as_i8. rewrite cast_sat_IZR by lia. split; [lia | reflexivity].
Qed.

Lemma error_percentage_within_half_witness :
  trunc ((frequency_to_key_number 440 - 1) / 12) =
  trunc ((round (frequency_to_key_number 440) - 1) / 12) /\
  (-50 <= error_percentage (new 440) <= 50)%Z.
Proof.
  assert (H : trunc ((frequency_to_key_number 440 - 1) / 12) =
              trunc ((round (frequency_to_key_number 440) - 1) / 12)).
  { rewrite frequency_to_key_number_440.
    replace 49 with (IZR 49) by reflexivity. rewrite round_IZR. reflexivity. }
  split; [exact H|]. exact (proj1 (error_percentage_within_half 440 H)).
Defined.

(** Just below the first key of a 12-key block (a key [12 m + 1 - d] with
    [0 < d < 1/2], which rounds up into the next block), the error percentage
    saturates at 127: the raw note number is near 10 while the note number
    of the rounded key is -2. *)
Theorem error_percentage_saturates_below_block (f : R) (m : Z) (d : R) :
  (1 <= m)%Z -> 0 < d < / 2 ->
  frequency_to_key_number f = IZR (12 * m + 1) - d ->
  error_percentage (new f) = 127%Z.
Proof.
  intros Hm Hd Hk. unfold new. simpl. rewrite Hk.
  assert (HmR : IZR (12 * m + 1) = 12 * IZR m + 1)
    by (rewrite plus_IZR, mult_IZR; reflexivity).
  assert (Hm1 : 1 <= IZR m) by (apply IZR_le in Hm; exact Hm).
  assert (Hround : round (IZR (12 * m + 1) - d) = IZR (12 * m + 1)).
  { rewrite round_nonneg by lra. f_equal. apply Int_part_between. lra. }
  rewrite Hround. unfold get_error_percentage, key_to_raw_note_number, fmod.
  rewrite (trunc_between ((IZR (12 * m + 1) - d - 1) / 12) (m - 1))
    by (rewrite ?minus_IZR; lra).
  rewrite (trunc_between ((IZR (12 * m + 1) - 1) / 12) m) by lra.
  set (y := (IZR (12 * m + 1) - d - 1 - IZR (m - 1) * 12 - 2 -
             (IZR (12 * m + 1) - 1 - IZR m * 12 - 2)) * 100).
  assert (Hy : 1150 < y < 1200) by (unfold y; rewrite minus_IZR; lra).
  unfold round. destruct (Rle_dec 0 y) as [_|]; [|lra].
  pose proof (Int_part_bounds (y + / 2)) as B.
  assert (IZR 1149 < IZR (Int_part (y + / 2))) as B' by lra. apply lt_IZR in B'.
  unfold as_i8, cast_sat. rewrite trunc_IZR. lia.
Qed.

Lemma error_percentage_saturates_below_block_witness :
  (1 <= 4)%Z /\ 0 < / 4 < / 2 /\
  frequency_to_key_number (440 * Rpower 2 ((IZR (12 * 4 + 1) - / 4 - 49) / 12)) =
    IZR (12 * 4 + 1) - / 4 /\
  error_percentage (new (440 * Rpower 2 ((IZR (12 * 4 + 1) - / 4 - 49) / 12))) = 127%Z.
Proof.
  assert (H1 : (1 <= 4)%Z) by lia. assert (H2 : 0 < / 4 < / 2) by lra.
  assert (H3 : frequency_to_key_number (440 * Rpower 2 ((IZR (12 * 4 + 1) - / 4 - 49) / 12)) =
               IZR (12 * 4 + 1) - / 4)
    by (rewrite frequency_to_key_number_pow2; ring).
  split; [exact H1|]. split; [exact H2|]. split; [exact H3|].
  exact (error_percentage_saturates_below_block _ 4 (/ 4) H1 H2 H3).
Defined.

(** A non-negative key number whose rounding lies in [12 m .. 12 m + 11]
    has octave [m + 1] (for octaves that fit in a [u8]). *)
Theorem octave_by_key_block (k : R) (m : Z) :
  (0 <= m <= 254)%Z -> 0 <= k ->
  12 * IZR m - / 2 <= k < 12 * IZR m + 23 / 2 ->
  get_octave_by_key_number k = (m + 1)%Z.
Proof.
  intros Hm Hk Hb. unfold get_octave_by_key_number, floor, as_u8.
  rewrite round_nonneg by lra.
  pose proof (Int_part_bounds (k + / 2)) as B.
  set (n := Int_part (k + / 2)) in *.
  assert (IZR (12 * m - 1) < IZR n < IZR (12 * m + 12)) as [H1 H2]
    by (rewrite minus_IZR, !plus_IZR, !mult_IZR; lra).
  apply lt_IZR in H1. apply lt_IZR in H2.
  assert (IZR (12 * m) <= IZR n <= IZR (12 * m + 11)) as [H3 H4]
    by (split; apply IZR_le; lia).
  rewrite plus_IZR, !mult_IZR in *.
  rewrite (Int_part_between (IZR n / 12) m) by lra.
  rewrite <- plus_IZR. apply cast_sat_IZR. lia.
Qed.

Lemma octave_by_key_block_witness :
  (0 <= 4 <= 254)%Z /\ 0 <= 49 /\ 12 * IZR 4 - / 2 <= 49 < 12 * IZR 4 + 23 / 2 /\
  get_octave_by_key_number 49 = 5%Z.
Proof.
  assert (H1 : (0 <= 4 <= 254)%Z) by lia. assert (H2 : 0 <= 49) by lra.
  assert (H3 : 12 * IZR 4 - / 2 <= 49 < 12 * IZR 4 + 23 / 2) by lra.
  split; [exact H1|]. split; [exact H2|]. split; [exact H3|].
  exact (octave_by_key_block 49 4 H1 H2 H3).
Defined.

End NoteExtra.

(* ------------------------------------------------------------------ *)
(** ** [fft] computes the discrete Fourier transform *)
(* ------------------------------------------------------------------ *)

Module FFTExtra.
Import Cplx FFT DFT FFTFacts.
Local Open Scope R_scope.

Lemma C_ext (a b : C) : re a = re b -> im a = im b -> a = b.
Proof. destruct a, b; simpl; intros -> ->; reflexivity. Qed.

Ltac Cring := apply C_ext; unfold Cadd, Csub, Cmul, C0 in *; simpl; ring.

Lemma Csum_cons (x : C) (l : list C) : Csum (x :: l) = Cadd x (Csum l).
Proof. reflexivity. Qed.

Lemma Csum_nil : Csum [] = C0.
Proof. reflexivity. Qed.

Lemma Csum_app (l1 l2 : list C) : Csum (l1 ++ l2) = Cadd (Csum l1) (Csum l2).
Proof.
  induction l1 as [|x l IH]; simpl app; rewrite ?Csum_cons.
  - unfold Csum at 2. simpl. Cring.
  - rewrite IH. Cring.
Qed.

Lemma Csum_map_scale (c : C) (f : nat -> C) (l : list nat) :
  Csum (map (fun t => Cmul c (f t)) l) = Cmul c (Csum (map f l)).
Proof.
  induction l as [|x l IH]; simpl map; rewrite ?Csum_cons.
  - unfold Csum. simpl. Cring.
  - rewrite IH. Cring.
Qed.

Lemma Csum_seq_split (h : nat) (f : nat -> C) :
  Csum (map f (seq 0 (2 * h))) =
  Cadd (Csum (map (fun t => f (2 * t)%nat) (seq 0 h)))
       (Csum (map (fun t => f (2 * t + 1)%nat) (seq 0 h))).
Proof.
  induction h as [|h IH].
  - unfold Csum. simpl. Cring.
  - replace (2 * S h)%nat with (2 * h + 2)%nat by lia.
    rewrite seq_app, (seq_S h 0), !map_app, !Csum_app, IH, !Nat.add_0_l.
    assert (E : seq (2 * h) 2 = [(2 * h)%nat; (2 * h + 1)%nat])
      by (simpl; rewrite Nat.add_1_r; reflexivity).
    rewrite E. simpl map. rewrite !Csum_cons, !Csum_nil. Cring.
Qed.

Lemma nth_evens_odds {A} (s : list A) (d : A) : forall t,
  nth t (evens s) d = nth (2 * t) s d /\ nth t (odds s) d = nth (2 * t + 1) s d.
Proof.
  induction s as [|x r IH]; intros t.
  - destruct t; simpl; split; reflexivity.
  - destruct t as [|t]; simpl evens; simpl odds.
    + split; [reflexivity|]. simpl. exact (proj1 (IH 0%nat)).
    + replace (2 * S t)%nat with (S (2 * t + 1)) by lia.
      replace (S (2 * t + 1) + 1)%nat with (S (2 * S t)) by lia.
      simpl nth. split; [exact (proj2 (IH t)) | exact (proj1 (IH (S t)))].
Qed.

(** *** The twiddle factors *)

Lemma W_add (n a b : nat) : W n (a + b) = Cmul (W n a) (W n b).
Proof.
  unfold W, Cexp, Cmul. simpl. rewrite plus_INR, exp_0.
  replace (-2 * PI * (INR a + INR b) / INR n)
    with (-2 * PI * INR a / INR n + -2 * PI * INR b / INR n) by (unfold Rdiv; ring).
  rewrite cos_plus, sin_plus. apply C_ext; simpl; ring.
Qed.

Lemma W_zero (n : nat) : W n 0 = mkC 1 0.
Proof.
  unfold W, Cexp. simpl.
  replace (-2 * PI * 0 / INR n) with 0 by (unfold Rdiv; ring).
  rewrite exp_0, cos_0, sin_0. apply C_ext; simpl; ring.
Qed.

Lemma W_double (h m : nat) : (0 < h)%nat -> W (2 * h) (2 * m) = W h m.
Proof.
  intros Hh. unfold W. rewrite !mult_INR. simpl (INR 2).
  assert (INR h <> 0) by (apply not_0_INR; lia).
  replace (-2 * PI * ((1 + 1) * INR m) / ((1 + 1) * INR h))
    with (-2 * PI * INR m / INR h) by (field; auto). reflexivity.
Qed.

Lemma W_full (h t : nat) : (0 < h)%nat -> W h (h * t) = mkC 1 0.
Proof.
  intros Hh. unfold W, Cexp. simpl. rewrite mult_INR, exp_0.
  assert (INR h <> 0) by (apply not_0_INR; lia).
  replace (-2 * PI * (INR h * INR t) / INR h) with (- (0 + 2 * INR t * PI))
    by (field; auto).
  rewrite cos_neg, sin_neg, cos_period, sin_period, cos_0, sin_0.
  apply C_ext; simpl; ring.
Qed.

Lemma W_half (h k : nat) : (0 < h)%nat ->
  W (2 * h) (k + h) = mkC (- re (W (2 * h) k)) (- im (W (2 * h) k)).
Proof.
  intros Hh. unfold W, Cexp. rewrite plus_INR, mult_INR. simpl.
  assert (INR h <> 0) by (apply not_0_INR; lia).
  replace (-2 * PI * (INR k + INR h) / ((1 + 1) * INR h))
    with (-2 * PI * INR k / ((1 + 1) * INR h) - PI) by (field; auto).
  rewrite cos_minus, sin_minus, cos_PI, sin_PI. apply C_ext; simpl; ring.
Qed.

(** *** The transform of a signal of length [2 h] from those of its even and
    odd samples *)

Lemma dft_split (s : list C) (h : nat) (j : nat) :
  length s = (2 * h)%nat -> (0 < h)%nat ->
  dft s j = Cadd (dft (evens s) j) (Cmul (W (2 * h) j) (dft (odds s) j)).
Proof.
  intros Hs Hh. destruct (evens_odds_length s) as [L1 L2].
  assert (He : length (evens s) = h) by lia.
  assert (Ho : length (odds s) = h) by lia.
  unfold dft. rewrite Hs, He, Ho, Csum_seq_split, <- Csum_map_scale. f_equal; f_equal.
  - apply map_ext. intros t. rewrite (proj1 (nth_evens_odds s C0 t)).
    replace (j * (2 * t))%nat with (2 * (j * t))%nat by lia.
    rewrite W_double by exact Hh. reflexivity.
  - apply map_ext. intros t. rewrite (proj2 (nth_evens_odds s C0 t)).
    replace (j * (2 * t + 1))%nat with (2 * (j * t) + j)%nat by lia.
    rewrite W_add, W_double by exact Hh. Cring.
Qed.

Lemma dft_periodic (x : list C) (k : nat) :
  (0 < length x)%nat -> dft x (k + length x) = dft x k.
Proof.
  intros Hn. unfold dft. f_equal. apply map_ext. intros t.
  replace ((k + length x) * t)%nat with (k * t + length x * t)%nat by lia.
  rewrite W_add, W_full by exact Hn. Cring.
Qed.

Lemma dft_one (x : C) : dft [x] 0 = x.
Proof.
  unfold dft. simpl. rewrite W_zero. unfold Csum. simpl. Cring.
Qed.

(** *** The butterfly loop of [combine] *)

Lemma nth_set_nth {A} (l : list A) : forall (j i : nat) (v d : A),
  nth i (set_nth j v l) d =
  if (i =? j) && (j <? length l) then v else nth i l d.
Proof.
  induction l as [|x r IH]; intros j i v d.
  - simpl. rewrite Bool.andb_false_r. destruct j, i; reflexivity.
  - destruct j as [|j], i as [|i]; simpl; try reflexivity.
    rewrite IH. reflexivity.
Qed.

Ltac nat_cases :=
  repeat match goal with
  | |- context [?a =? ?b] => destruct (Nat.eqb_spec a b)
  | |- context [?a <? ?b] => destruct (Nat.ltb_spec a b)
  | |- context [?a <=? ?b] => destruct (Nat.leb_spec a b)
  end; simpl; try lia; try reflexivity.

Lemma fold_butterfly (A B : nat -> C) (h : nat) : forall m, (m <= h)%nat ->
  length (fold_left (fun output k => set_nth (k + h) (B k) (set_nth k (A k) output))
            (seq 0 m) (repeat C0 (2 * h))) = (2 * h)%nat /\
  forall i, nth i (fold_left (fun output k => set_nth (k + h) (B k) (set_nth k (A k) output))
                     (seq 0 m) (repeat C0 (2 * h))) C0 =
            if (i <? m)%nat then A i
            else if (h <=? i)%nat && (i <? h + m)%nat then B (i - h)%nat else C0.
Proof.
  induction m as [|m IH]; intros Hm.
  - simpl. split; [apply repeat_length|]. intros i. rewrite nth_repeat. nat_cases.
  - destruct (IH ltac:(lia)) as [IHl IHn].
    rewrite seq_S, fold_left_app. cbn [fold_left]. rewrite Nat.add_0_l.
    split; [rewrite !set_nth_length; exact IHl|].
    intros i. rewrite !nth_set_nth, set_nth_length, IHl, IHn.
    nat_cases; subst; f_equal; lia.
Qed.

Lemma combine_spec (h : nat) (e o : list C) (k : nat) :
  (k < h)%nat ->
  nth k (combine (2 * h) e o) C0 =
    Cadd (nth k e C0) (Cmul (W (2 * h) k) (nth k o C0)) /\
  nth (k + h) (combine (2 * h) e o) C0 =
    Csub (nth k e C0) (Cmul (W (2 * h) k) (nth k o C0)).
Proof.
  intros Hk.
  assert (Hc : combine (2 * h) e o =
    fold_left (fun output k =>
      set_nth (k + h) ((fun k => Csub (nth k e C0) (Cmul (W (2 * h) k) (nth k o C0))) k)
        (set_nth k ((fun k => Cadd (nth k e C0) (Cmul (W (2 * h) k) (nth k o C0))) k) output))
      (seq 0 h) (repeat C0 (2 * h))).
  { unfold combine. replace (2 * h / 2)%nat with h
      by (rewrite Nat.mul_comm, Nat.div_mul; lia). reflexivity. }
  rewrite Hc.
  destruct (fold_butterfly
    (fun k => Cadd (nth k e C0) (Cmul (W (2 * h) k) (nth k o C0)))
    (fun k => Csub (nth k e C0) (Cmul (W (2 * h) k) (nth k o C0))) h h (le_n h))
    as [_ Hn].
  rewrite !Hn. split; nat_cases. f_equal; f_equal; f_equal; lia.
Qed.

(** *** Correctness *)

Lemma fft_dft (signal output : list C) :
  fft signal = Some output ->
  forall j, (j < length signal)%nat -> nth j output C0 = dft signal j.
Proof.
  intros Hf.
  assert (Hp : is_power_of_two (length signal) = true).
  { destruct (is_power_of_two (length signal)) eqn:E; [reflexivity|].
    rewrite (fft_not_pow2 signal E) in Hf. discriminate. }
  apply is_power_of_two_spec in Hp as [k Hk].
  revert signal output Hf Hk. induction k as [|k IH]; intros signal output Hf Hk j Hj.
  - rewrite (fft_one signal Hk) in Hf. injection Hf as <-.
    destruct signal as [|x [|y r]]; simpl in Hk; try discriminate.
    simpl in Hj. assert (j = 0%nat) by lia. subst j. rewrite dft_one. reflexivity.
  - assert (Hh : (0 < 2 ^ k)%nat) by (pose proof (Nat.pow_nonzero 2 k); lia).
    assert (Hs : length signal = (2 * 2 ^ k)%nat) by (rewrite Hk, Nat.pow_succ_r'; reflexivity).
    assert (Hp : is_power_of_two (length signal) = true)
      by (apply is_power_of_two_spec; eauto).
    assert (H1 : length signal <> 1%nat) by lia.
    destruct (evens_odds_pow2 signal k Hk) as [He Ho].
    rewrite (fft_split signal Hp H1) in Hf.
    destruct (fft (evens signal)) as [ev|] eqn:Fe; [|discriminate].
    destruct (fft (odds signal)) as [od|] eqn:Fo; [|discriminate].
    injection Hf as <-. rewrite Hs.
    pose proof (IH _ _ Fe He) as IHe. pose proof (IH _ _ Fo Ho) as IHo.
    rewrite He in IHe. rewrite Ho in IHo.
    rewrite (dft_split signal (2 ^ k) j Hs Hh).
    destruct (Nat.lt_ge_cases j (2 ^ k)) as [Hlt|Hge].
    + rewrite (proj1 (combine_spec (2 ^ k) ev od j Hlt)).
      rewrite IHe, IHo by exact Hlt. reflexivity.
    + rewrite Hs in Hj. replace j with (j - 2 ^ k + 2 ^ k)%nat by lia.
      rewrite (proj2 (combine_spec (2 ^ k) ev od (j - 2 ^ k) ltac:(lia))).
      rewrite IHe, IHo by lia.
      assert (P : forall x m, length x = (2 ^ k)%nat -> dft x (m + 2 ^ k)%nat = dft x m)
        by (intros x m Hx; rewrite <- Hx; apply dft_periodic; lia).
      rewrite (P (evens signal)), (P (odds signal)), W_half by assumption.
      Cring.
Qed.

Lemma dft_zero_bin (x : list C) : dft x 0 = Csum x.
Proof.
  unfold dft.
  assert (E : map (fun t => Cmul (nth t x C0) (W (length x) (0 * t))) (seq 0 (length x))
              = map (fun t => nth t x C0) (seq 0 (length x))).
  { apply map_ext. intros t. rewrite Nat.mul_0_l, W_zero. Cring. }
  rewrite E. clear E. induction x as [|a r IH]; [reflexivity|].
  simpl length. rewrite <- cons_seq, map_cons, <- seq_shift, map_map.
  simpl nth. rewrite !Csum_cons, IH. reflexivity.
Qed.

Lemma Csum_map_Cfrom (w : list R) :
  Csum (map Cfrom w) = mkC (fold_right Rplus 0 w) 0.
Proof.
  induction w as [|a r IH]; [reflexivity|].
  simpl map. rewrite Csum_cons, IH. Cring.
Qed.

Lemma spectrum_dft (window mags : list R) :
  spectrum window = Some mags ->
  length mags = length window /\
  forall j, (j < length window)%nat -> nth j mags 0 = Cnorm (dft (map Cfrom window) j).
Proof.
  unfold spectrum. destruct (fft (map Cfrom window)) as [out|] eqn:F; simpl;
    intros H; [injection H as <-|discriminate].
  rewrite length_map, (fft_length _ _ F), length_map. split; [reflexivity|].
  intros j Hj.
  rewrite <- (fft_dft _ _ F j) by (rewrite length_map; exact Hj).
  assert (Hl : (j < length out)%nat)
    by (rewrite (fft_length _ _ F), length_map; exact Hj).
  rewrite (nth_indep _ 0 (Cnorm C0)) by (rewrite length_map; exact Hl).
  apply map_nth.
Qed.

(** [fft] computes the discrete Fourier transform: on success it returns
    a signal of the same length whose bin [j] is
    [sum_{t < n} signal_t * exp(-2 pi i j t / n)]. *)
Theorem fft_computes_dft (signal output : list C) :
  fft signal = Some output ->
  length output = length signal /\
  forall j, (j < length signal)%nat -> nth j output C0 = dft signal j.
Proof.
  intros Hf. split; [exact (fft_length _ _ Hf) | exact (fft_dft _ _ Hf)].
Qed.

Lemma fft_computes_dft_witness :
  fft [mkC 3 1] = Some [mkC 3 1] /\ nth 0 [mkC 3 1] C0 = dft [mkC 3 1] 0.
Proof.
  assert (H : fft [mkC 3 1] = Some [mkC 3 1]) by (apply fft_one; reflexivity).
  split; [exact H|].
  exact (proj2 (fft_computes_dft _ _ H) 0%nat ltac:(simpl; lia)).
Defined.

(** The magnitudes stored in [fft_transform] are the moduli of the DFT of
    the window, one per sample; the first one is the absolute value of the
    sum of the window's samples. *)
Theorem spectrum_is_dft_magnitude (window mags : list R) :
  spectrum window = Some mags ->
  length mags = length window /\
  (forall j, (j < length window)%nat -> nth j mags 0 = Cnorm (dft (map Cfrom window) j)) /\
  nth 0 mags 0 = Rabs (fold_right Rplus 0 window).
Proof.
  intros Hs. destruct (spectrum_dft _ _ Hs) as [Hl Hn].
  split; [exact Hl|]. split; [exact Hn|].
  destruct window as [|w ws].
  - unfold spectrum in Hs. rewrite fft_not_pow2 in Hs by reflexivity. discriminate.
  - rewrite (Hn 0%nat) by (simpl; lia).
    rewrite dft_zero_bin, Csum_map_Cfrom. unfold Cnorm. simpl.
    rewrite Rmult_0_l, Rplus_0_r. apply sqrt_Rsqr_abs.
Qed.

Lemma spectrum_is_dft_magnitude_witness :
  spectrum [3] = Some [Cnorm (Cfrom 3)] /\ nth 0 [Cnorm (Cfrom 3)] 0 = Rabs (3 + 0).
Proof.
  assert (H : spectrum [3] = Some [Cnorm (Cfrom 3)])
    by (unfold spectrum; simpl map; rewrite fft_one by reflexivity; reflexivity).
  split; [exact H|].
  exact (proj2 (proj2 (spectrum_is_dft_magnitude _ _ H))).
Defined.

End FFTExtra.

(* ------------------------------------------------------------------ *)
(** ** The bars of [Graph::run] *)
(* ------------------------------------------------------------------ *)

Module BarsExtra.
Import Note NoteFacts NoteExtra Graph GraphFacts Bars.
Local Open Scope R_scope.

Lemma fold_Rmax_spec (r : list R) : forall a,
  a <= fold_left Rmax r a /\ (forall v, In v r -> v <= fold_left Rmax r a).
Proof.
  induction r as [|b r IH]; intros a; simpl.
  - split; [lra | tauto].
  - destruct (IH (Rmax a b)) as [H1 H2].
    pose proof (Rmax_l a b). pose proof (Rmax_r a b).
    split; [lra|]. intros v [<-|Hv]; [lra | auto].
Qed.

Lemma highest_amplitude_spec (l : list R) (m : R) :
  highest_amplitude l = Some m -> forall v, In v l -> v <= m.
Proof.
  destruct l as [|a r]; simpl; intros H; [discriminate|]. injection H as <-.
  destruct (fold_Rmax_spec r a) as [H1 H2]. intros v [<-|Hv]; auto.
Qed.

Lemma nth_error_map_seq {A} (f : nat -> A) (n i : nat) (v : A) :
  nth_error (map f (seq 0 n)) i = Some v -> (i < n)%nat /\ v = f i.
Proof.
  rewrite nth_error_map. destruct (Nat.lt_ge_cases i n) as [Hi|Hi].
  - rewrite (nth_error_nth' (seq 0 n) 0%nat) by (rewrite length_seq; lia).
    rewrite seq_nth by lia. simpl. intros H. injection H as <-. auto.
  - rewrite (proj2 (nth_error_None _ _)) by (rewrite length_seq; lia). discriminate.
Qed.

Lemma bin_frequency_below_max (i mdf len sr : nat) :
  (0 < sr)%nat -> (i < mdf * len / sr)%nat ->
  bin_index_to_frequency_in_hz i len sr < INR mdf.
Proof.
  intros Hsr Hi. unfold bin_index_to_frequency_in_hz.
  pose proof (Nat.Div0.mul_div_le (mdf * len) sr) as Hd.
  assert (Hlt : (i * sr < mdf * len)%nat) by nia.
  assert (Hlen : (0 < len)%nat) by (destruct len; [rewrite Nat.mul_0_r in Hlt|]; lia).
  apply lt_0_INR in Hlen.
  apply Rmult_lt_reg_r with (INR len); [exact Hlen|].
  unfold Rdiv. rewrite Rmult_assoc, Rinv_l, Rmult_1_r by lra.
  rewrite <- !mult_INR. apply lt_INR. exact Hlt.
Qed.

(** The working copy after the refresh at the start of [run], and the bar
    list built from it. *)
Lemma run_bars_unfold (g : Graph) (sh : Shared) (sr : nat) :
  (0 < sr)%nat -> (max_displayed_frequency g <= sr)%nat ->
  exists g',
    data_buffer g' = (if paused sh then data_buffer g else data_locker sh) /\
    Graph.height g' = Graph.height g /\
    run_bars g sh sr =
      (let b := data_buffer g' in
       let mb := (max_displayed_frequency g * length b / sr)%nat in
       if length b <? buffer_size g then Ok []
       else match highest_amplitude b with
            | None => Panic
            | Some h =>
                Ok (map (fun i => bar g' sr (frequency_bar_width (Graph.width g) (Z.of_nat mb))
                                    h i (nth i b 0))
                        (seq 0 mb))
            end).
Proof.
  intros Hsr Hmf.
  assert (Hsr0 : (sr =? 0)%nat = false) by (apply Nat.eqb_neq; lia).
  assert (Hmb : forall b : list R, (max_displayed_frequency g * length b / sr <= length b)%nat)
    by (intros b; apply Nat.Div0.div_le_upper_bound; nia).
  unfold run_bars. rewrite Hsr0.
  destruct (paused sh); [exists g | exists (set_data_buffer g (data_locker sh))];
    (split; [reflexivity|]); (split; [reflexivity|]); simpl;
    rewrite (proj2 (Nat.ltb_ge _ _) (Hmb _)); reflexivity.
Qed.

(** When the working copy is not empty, the sample rate is positive, the
    maximum displayed frequency does not exceed it and the window width
    fits an [i32], [run] builds its bars without panicking: none before
    the first full window, then one per displayed bin.  Bar [i] describes
    bin [i], carries the [NoteStatus] of the bin's frequency
    [i * sample_rate / len], which is below [max_displayed_frequency], and
    the bars are laid side by side ([x = i * width], no [i32] wrap-around). *)
Theorem run_bars_layout (g : Graph) (sh : Shared) (sr : nat) :
  (0 < sr)%nat -> (max_displayed_frequency g <= sr)%nat ->
  (if paused sh then data_buffer g else data_locker sh) <> [] ->
  (0 <= Graph.width g <= i32_max)%Z ->
  exists bars,
    run_bars g sh sr = Ok bars /\
    length bars =
      (if length (if paused sh then data_buffer g else data_locker sh) <? buffer_size g then 0
       else max_displayed_frequency g
              * length (if paused sh then data_buffer g else data_locker sh) / sr)%nat /\
    forall i br, nth_error bars i = Some br ->
      analyzing_bin_index (frequency_data br) = i /\
      note_status (frequency_data br) =
        new (bin_index_to_frequency_in_hz i
               (length (if paused sh then data_buffer g else data_locker sh)) sr) /\
      frequency_in_hz (note_status (frequency_data br)) < INR (max_displayed_frequency g) /\
      Bars.x br = (Bars.width br * Z.of_nat i)%Z.
Proof.
  intros Hsr Hmf Hne Hw.
  destruct (run_bars_unfold g sh sr Hsr Hmf) as [g' [Hb [_ Hrun]]].
  rewrite Hrun, <- Hb. clear Hrun. rewrite <- Hb in Hne.
  set (b := data_buffer g') in *.
  set (mb := (max_displayed_frequency g * length b / sr)%nat).
  cbv zeta. fold mb.
  destruct (length b <? buffer_size g) eqn:Hbs.
  - exists []. split; [reflexivity|]. split; [reflexivity|].
    intros i br H. destruct i; discriminate.
  - assert (Hh : exists h, highest_amplitude b = Some h).
    { unfold b in *. destruct (data_buffer g'); [contradiction|]. eexists; reflexivity. }
    destruct Hh as [h Hh]. rewrite Hh.
    eexists. split; [reflexivity|]. split; [rewrite length_map, length_seq; reflexivity|].
    intros i br Hi. apply nth_error_map_seq in Hi as [Hi ->].
    unfold bar. cbn [analyzing_bin_index frequency_data note_status Bars.x Bars.width
                     frequency_in_hz new].
    fold b. split; [reflexivity|]. split; [reflexivity|]. split.
    + apply bin_frequency_below_max; assumption.
    + assert (Hmb0 : (0 < Z.of_nat mb)%Z) by lia.
      unfold frequency_bar_width.
      rewrite (proj2 (Z.eqb_neq (Z.of_nat mb) 0) ltac:(lia)).
      pose proof (Z.mul_div_le (Graph.width g) (Z.of_nat mb) Hmb0) as Hd.
      pose proof (Z.div_pos (Graph.width g) (Z.of_nat mb) ltac:(lia) Hmb0) as Hq.
      set (q := (Graph.width g / Z.of_nat mb)%Z) in *.
      set (fbw := Z.min i32_max q).
      assert (Hf : (0 <= fbw <= q)%Z) by (unfold fbw, i32_max in *; lia).
      unfold wrap_u32. rewrite (Z.mod_small fbw) by (unfold i32_max in *; lia).
      destruct (Z.eq_dec fbw 0) as [E0|E0].
      * rewrite E0, !Z.mul_0_l. reflexivity.
      * assert (Hmbw : (Z.of_nat mb <= Graph.width g)%Z) by nia.
        rewrite (wrap_i32_small (Z.of_nat i)) by (unfold i32_max in *; lia).
        apply wrap_i32_small. unfold i32_max in *. nia.
Qed.

Lemma run_bars_layout_witness :
  let g := mkGraph 100 100 4 5 [] in
  let sh := mkShared [1; 2; 3; 4] false 0 in
  (0 < 10)%nat /\ (max_displayed_frequency g <= 10)%nat /\
  (if paused sh then data_buffer g else data_locker sh) <> [] /\
  (0 <= Graph.width g <= i32_max)%Z /\
  exists bars, run_bars g sh 10 = Ok bars /\ length bars = 2%nat.
Proof.
  intros g sh.
  assert (H1 : (0 < 10)%nat) by lia.
  assert (H2 : (max_displayed_frequency g <= 10)%nat) by (simpl; lia).
  assert (H3 : (if paused sh then data_buffer g else data_locker sh) <> [])
    by (simpl; discriminate).
  assert (H4 : (0 <= Graph.width g <= i32_max)%Z) by (vm_compute; split; discriminate).
  refine (conj H1 (conj H2 (conj H3 (conj H4 _)))).
  destruct (run_bars_layout g sh 10 H1 H2 H3 H4) as [bars [Hr [Hl _]]].
  exists bars. split; [exact Hr | exact Hl].
Defined.

Lemma round_percent (p : R) : 0 <= p <= 100 ->
  exists n, round p = IZR n /\ (0 <= n <= 100)%Z.
Proof.
  intros Hp. rewrite round_nonneg by lra.
  pose proof (Int_part_bounds (p + / 2)) as B.
  exists (Int_part (p + / 2)). split; [reflexivity|].
  assert (IZR (-1) < IZR (Int_part (p + / 2)) < IZR 101) as [B1 B2] by lra.
  apply lt_IZR in B1. apply lt_IZR in B2. lia.
Qed.

Lemma bar_geometry (g : Graph) (sr : nat) (fbw : Z) (h : R) (i : nat) (d : R) :
  0 < h -> 0 <= nth i (data_buffer g) 0 <= h -> 0 <= d <= h ->
  (40 <= Graph.height g <= i32_max)%Z ->
  (0 <= amplitude_percentage (frequency_data (bar g sr fbw h i d)) <= 100)%Z /\
  (0 <= Bars.height (bar g sr fbw h i d) <= Graph.height g - 40)%Z /\
  (Bars.y (bar g sr fbw h i d) + Bars.height (bar g sr fbw h i d) = Graph.height g - 30)%Z.
Proof.
  intros Hh Hn Hd HH. unfold bar.
  cbn [amplitude_percentage frequency_data Bars.height Bars.y].
  set (H := Graph.height g) in *.
  assert (W1 : wrap_u32 (H - 30) = (H - 30)%Z)
    by (unfold wrap_u32, i32_max in *; apply Z.mod_small; lia).
  assert (W2 : wrap_u32 (H - 30 - 10) = (H - 40)%Z)
    by (unfold wrap_u32, i32_max in *; rewrite Z.mod_small; lia).
  rewrite W1, W2.
  assert (Hq : 0 <= d / h <= 1).
  { split; [unfold Rdiv; apply Rmult_le_pos; [lra | left; apply Rinv_0_lt_compat; lra]|].
    unfold Rdiv. apply Rmult_le_reg_r with h; [lra|].
    rewrite Rmult_assoc, Rinv_l, Rmult_1_r, Rmult_1_l by lra. lra. }
  assert (HA : 0 <= IZR (H - 40)) by (apply IZR_le; lia).
  set (v := IZR (H - 40) * d / (h * (11 / 10))).
  assert (Hv : 0 <= v <= IZR (H - 40)).
  { unfold v. replace (IZR (H - 40) * d / (h * (11 / 10)))
      with (IZR (H - 40) * (d / h) * (10 / 11)) by (field; lra).
    assert (0 <= IZR (H - 40) * (d / h) <= IZR (H - 40) * 1)
      by (split; [apply Rmult_le_pos | apply Rmult_le_compat_l]; lra).
    lra. }
  destruct (trunc_bounds v) as [Tv _]. specialize (Tv (proj1 Hv)).
  assert (IZR (-1) < IZR (trunc v)) as T1 by lra. apply lt_IZR in T1.
  assert (IZR (trunc v) <= IZR (H - 40)) as T2 by lra. apply le_IZR in T2.
  assert (Hbar : as_u32 v = trunc v) by (unfold as_u32, cast_sat, i32_max in *; lia).
  rewrite Hbar.
  assert (Hp : 0 <= nth i (data_buffer g) 0 / h * 100 <= 100).
  { assert (0 <= nth i (data_buffer g) 0 / h <= 1).
    { split; [unfold Rdiv; apply Rmult_le_pos; [lra | left; apply Rinv_0_lt_compat; lra]|].
      unfold Rdiv. apply Rmult_le_reg_r with h; [lra|].
      rewrite Rmult_assoc, Rinv_l, Rmult_1_r, Rmult_1_l by lra. lra. }
    lra. }
  destruct (round_percent _ Hp) as [n [Hn' Hn100]]. rewrite Hn'.
  unfold as_u8. rewrite cast_sat_IZR by lia.
  unfold wrap_u32. rewrite Z.mod_small by (unfold i32_max in *; lia).
  rewrite wrap_i32_small by (unfold i32_max in *; lia).
  split; [exact Hn100|]. split; lia.
Qed.

Lemma run_bars_member (g : Graph) (sh : Shared) (sr : nat) (bars : list GraphBar) br :
  run_bars g sh sr = Ok bars -> In br bars ->
  exists g' fbw h i,
    data_buffer g' = (if paused sh then data_buffer g else data_locker sh) /\
    Graph.height g' = Graph.height g /\
    highest_amplitude (data_buffer g') = Some h /\
    (i < length (data_buffer g'))%nat /\
    br = bar g' sr fbw h i (nth i (data_buffer g') 0).
Proof.
  intros Hrun Hbr. unfold run_bars in Hrun.
  destruct (paused sh); [exists g | exists (set_data_buffer g (data_locker sh))];
    cbn zeta in Hrun;
    (destruct (sr =? 0); [discriminate|]);
    (destruct (_ <? _) eqn:Hmb; [discriminate|]); apply Nat.ltb_ge in Hmb;
    (destruct (_ <? buffer_size _); [injection Hrun as <-; destruct Hbr|]);
    (destruct (highest_amplitude _) as [h|] eqn:Hh; [|discriminate]);
    injection Hrun as <-; apply in_map_iff in Hbr as [i [<- Hi]];
    apply in_seq in Hi;
    eexists; exists h, i; (split; [reflexivity|]); (split; [reflexivity|]);
    (split; [reflexivity|]); (split; [simpl in *; lia|reflexivity]).
Qed.

(** Whenever [run] builds bars from non-negative magnitudes, at least one
    of them positive, in a window of height at least 40 that fits an
    [i32], each bar's amplitude percentage lies in [0, 100], its height in
    [0, height - 40], and it stands on the ground line [height - 30]
    ([y + height = height - 30], so [y >= 10]): the [u32] subtractions
    do not wrap. *)
Theorem run_bars_geometry (g : Graph) (sh : Shared) (sr : nat) (bars : list GraphBar) :
  run_bars g sh sr = Ok bars ->
  Forall (fun v => 0 <= v) (if paused sh then data_buffer g else data_locker sh) ->
  Exists (fun v => 0 < v) (if paused sh then data_buffer g else data_locker sh) ->
  (40 <= Graph.height g <= i32_max)%Z ->
  forall br, In br bars ->
    (0 <= amplitude_percentage (frequency_data br) <= 100)%Z /\
    (0 <= Bars.height br <= Graph.height g - 40)%Z /\
    (Bars.y br + Bars.height br = Graph.height g - 30)%Z.
Proof.
  intros Hrun Hnn Hpos HH br Hbr.
  destruct (run_bars_member g sh sr bars br Hrun Hbr)
    as [g' [fbw [h [i [Hb [Hgh [Hh [Hi ->]]]]]]]].
  rewrite <- Hb in Hnn, Hpos. rewrite <- Hgh in HH |- *.
  pose proof (highest_amplitude_spec _ _ Hh) as Hmax.
  apply Exists_exists in Hpos as [p [Hp Hp0]]. rewrite Forall_forall in Hnn.
  assert (Hin : In (nth i (data_buffer g') 0) (data_buffer g')) by (apply nth_In; exact Hi).
  assert (Hh0 : 0 < h) by (specialize (Hmax p Hp); lra).
  assert (Hd : 0 <= nth i (data_buffer g') 0 <= h) by (split; [apply Hnn | apply Hmax]; exact Hin).
  exact (bar_geometry g' sr fbw h i _ Hh0 Hd Hd HH).
Qed.

Lemma run_bars_geometry_witness :
  let g := mkGraph 100 100 4 5 [] in
  let sh := mkShared [1; 2; 3; 4] false 0 in
  let bars := map (fun i => bar (set_data_buffer g [1; 2; 3; 4]) 10
                              (frequency_bar_width 100 2) (fold_left Rmax [2; 3; 4] 1) i
                              (nth i [1; 2; 3; 4] 0)) (seq 0 2) in
  run_bars g sh 10 = Ok bars /\
  Forall (fun v => 0 <= v) (if paused sh then data_buffer g else data_locker sh) /\
  Exists (fun v => 0 < v) (if paused sh then data_buffer g else data_locker sh) /\
  (40 <= Graph.height g <= i32_max)%Z /\
  (0 <= amplitude_percentage (frequency_data (hd (bar g 0 0 1 0 0) bars)) <= 100)%Z.
Proof.
  intros g sh bars.
  assert (H1 : run_bars g sh 10 = Ok bars) by reflexivity.
  assert (H2 : Forall (fun v => 0 <= v) (if paused sh then data_buffer g else data_locker sh))
    by (simpl; repeat constructor; lra).
  assert (H3 : Exists (fun v => 0 < v) (if paused sh then data_buffer g else data_locker sh))
    by (simpl; constructor; lra).
  assert (H4 : (40 <= Graph.height g <= i32_max)%Z) by (vm_compute; split; discriminate).
  refine (conj H1 (conj H2 (conj H3 (conj H4 _)))).
  exact (proj1 (run_bars_geometry g sh 10 bars H1 H2 H3 H4 _ (or_introl eq_refl))).
Defined.

(** For amplitude percentages in [0, 100] the [DisplayColors::Amplitude]
    colour has its red channel in [63, 200] and its blue channel in
    [104, 184]: the [as u8] casts never saturate. *)
Theorem amplitude_color_range (p : Z) :
  (0 <= p <= 100)%Z ->
  let '(r, g, b, a) := amplitude_color p in
  (63 <= r <= 200)%Z /\ g = 36%Z /\ (104 <= b <= 184)%Z /\ a = 255%Z.
Proof.
  intros Hp. unfold amplitude_color.
  assert (HP : 0 <= IZR p / 100 <= 1).
  { assert (IZR 0 <= IZR p <= IZR 100) as [A B] by (split; apply IZR_le; lia). lra. }
  set (q := IZR p / 100) in *.
  assert (Hr : 0 <= q * (200 - 63) + 63) by lra.
  assert (Hb : 0 <= (1 - q) * (184 - 104) + 104) by lra.
  rewrite (round_nonneg _ Hr), (round_nonneg _ Hb).
  pose proof (Int_part_bounds (q * (200 - 63) + 63 + / 2)) as Br.
  pose proof (Int_part_bounds ((1 - q) * (184 - 104) + 104 + / 2)) as Bb.
  assert (IZR 62 < IZR (Int_part (q * (200 - 63) + 63 + / 2)) < IZR 201) as [R1 R2]
    by lra.
  assert (IZR 103 < IZR (Int_part ((1 - q) * (184 - 104) + 104 + / 2)) < IZR 185)
    as [B1 B2] by lra.
  apply lt_IZR in R1, R2, B1, B2.
  unfold as_u8. rewrite !cast_sat_IZR by lia. lia.
Qed.

Lemma amplitude_color_range_witness :
  (0 <= 50 <= 100)%Z /\
  (let '(r, g, b, a) := amplitude_color 50 in
   (63 <= r <= 200)%Z /\ g = 36%Z /\ (104 <= b <= 184)%Z /\ a = 255%Z).
Proof.
  assert (H : (0 <= 50 <= 100)%Z) by lia.
  split; [exact H | exact (amplitude_color_range 50 H)].
Defined.

End BarsExtra.

(* ------------------------------------------------------------------ *)
(** ** [is_power_of_two] and the data callback *)
(* ------------------------------------------------------------------ *)

Module StreamExtra.
Import Cplx FFT DFT Stream FFTFacts FFTExtra.
Local Open Scope R_scope.

(** The bit test [n != 0 && (n & (n - 1)) == 0] holds exactly for the
    powers of two. *)
Theorem is_power_of_two_iff (n : nat) :
  is_power_of_two n = true <-> exists k, n = (2 ^ k)%nat.
Proof. exact (is_power_of_two_spec n). Qed.

(** What the audio callback stores: when no window is completed the
    magnitude array [fft_transform] is left as it is; when one is, it is
    replaced by [buffer_size] non-negative values, the moduli of the DFT
    of the window. *)
Theorem data_callback_stores_dft_magnitudes (buf result data buf' result' : list R) :
  data_callback buffer_size buf result data = Ok (buf', result') ->
  match Accumulator.callback buffer_size buf data with
  | (b, None) => buf' = b /\ result' = result
  | (b, Some w) =>
      buf' = b /\ length result' = buffer_size /\
      forall j, (j < buffer_size)%nat ->
        nth j result' 0 = Cnorm (dft (map Cfrom w) j) /\ 0 <= nth j result' 0
  end.
Proof.
  unfold data_callback.
  destruct (Accumulator.callback buffer_size buf data) as [b [w|]] eqn:Hc;
    intros H.
  - apply StreamFacts.callback_window_length in Hc.
    destruct (spectrum w) as [mags|] eqn:Hs; [|discriminate].
    injection H as <- <-.
    destruct (spectrum_dft w mags Hs) as [Hl Hn].
    rewrite Hc in Hl, Hn. split; [reflexivity|]. split; [exact Hl|].
    intros j Hj. rewrite (Hn j Hj). split; [reflexivity|]. apply sqrt_pos.
  - injection H as <- <-. split; reflexivity.
Qed.

Lemma data_callback_stores_dft_magnitudes_witness :
  data_callback buffer_size [] [1] [] = Ok ([], [1]) /\
  (let '(b, w) := Accumulator.callback (A := R) buffer_size [] [] in
   w = None /\ [] = b /\ [1] = [1]).
Proof.
  assert (H : data_callback buffer_size [] [1] [] = Ok ([], [1])) by reflexivity.
  split; [exact H|].
  pose proof (data_callback_stores_dft_magnitudes [] [1] [] [] [1] H) as P.
  simpl in P |- *. split; [reflexivity | exact P].
Defined.

End StreamExtra.
